(** * Call-centre transcript analyser: lexicon scoring, protocol checks and
      the interactive resolver of undefined words

    A shallow embedding of [analysis.py] and [interactive.py], followed by the
    properties of the scorer, the protocol classifier, the undefined-word
    finder, the candidate ranking, the resolver loop and the lexicon save.

    Conventions of the embedding.
    - A Python [str] is a list of Unicode code points ([list N]); a literal
      is written [utf8 "..."] and decoded from the UTF-8 bytes of this file.
    - A Python [dict] is an insertion-ordered association list: [list(d)]
      enumerates the keys in insertion order and the resolver depends on
      that order when it numbers the candidates.
    - The Unicode tables behind [str.lower], [unicodedata.normalize],
      [unicodedata.category], the regex class [\w], [str.isdigit] and [int]
      are an interface ([Unicode]); every theorem holds for any tables, and
      [latin1] gives them for U+0000..U+00FF so that examples evaluate.
    - [print] calls are not modelled; the branch taken by one pass of the
      resolver loop is returned as an [outcome]. *)

From Stdlib Require Import ZArith NArith Ascii String Lia.
From stdpp Require Import base tactics option list numbers countable gmap sorting.

Abbreviation char := N (only parsing).
Abbreviation str := (list N) (only parsing).

(** ** Python strings *)

Module PyStr.

(** Decoding of the UTF-8 bytes of a literal of this file into code points:
    [acc] holds the bits read so far, [more] the continuation bytes due. *)
Fixpoint utf8_go (acc : N) (more : nat) (bs : list N) : str :=
  match bs with
  | [] => []
  | b :: t =>
    match more with
    | O =>
      if (b <? 128)%N then b :: utf8_go 0%N 0 t
      else if (b <? 224)%N then utf8_go (b - 192)%N 1 t
      else if (b <? 240)%N then utf8_go (b - 224)%N 2 t
      else utf8_go (b - 240)%N 3 t
    | S O => (acc * 64 + (b - 128))%N :: utf8_go 0%N 0 t
    | S m => utf8_go (acc * 64 + (b - 128))%N m t
    end
  end.

Definition utf8 (s : string) : str :=
  utf8_go 0%N 0 (map N_of_ascii (list_ascii_of_string s)).

(** [str.isspace] of one character: the code points CPython treats as
    whitespace. *)
Definition isspace (c : char) : bool :=
  ((9 <=? c) && (c <=? 13) || (28 <=? c) && (c <=? 32)
   || (c =? 133) || (c =? 160) || (c =? 5760)
   || (8192 <=? c) && (c <=? 8202)
   || (c =? 8232) || (c =? 8233) || (c =? 8239) || (c =? 8287)
   || (c =? 12288))%N.

Fixpoint lstrip (s : str) : str :=
  match s with
  | c :: t => if isspace c then lstrip t else s
  | [] => []
  end.

Definition rstrip (s : str) : str := reverse (lstrip (reverse s)).

(** [s.strip()] *)
Definition strip (s : str) : str := rstrip (lstrip s).

(** The line boundaries of [str.splitlines], CR LF apart: LF, VT, FF, CR,
    FS, GS, RS, NEL, LS, PS. *)
Definition is_linebreak (c : char) : bool :=
  ((10 <=? c) && (c <=? 13) || (28 <=? c) && (c <=? 30)
   || (c =? 133) || (c =? 8232) || (c =? 8233))%N.

(** [s.splitlines()]: [cur] is the current line, reversed.  A last line
    without terminator is kept only when it is not empty. *)
Fixpoint splitlines_go (cur : str) (s : str) : list str :=
  match s with
  | [] => match cur with [] => [] | _ => [reverse cur] end
  | c :: t =>
    if is_linebreak c then
      match c, t with
      | 13%N, 10%N :: t' => reverse cur :: splitlines_go [] t'
      | _, _ => reverse cur :: splitlines_go [] t
      end
    else splitlines_go (c :: cur) t
  end.

Definition splitlines (s : str) : list str := splitlines_go [] s.

(** [old] is a prefix of [s]. *)
Fixpoint startswith (s old : str) : bool :=
  match old, s with
  | [], _ => true
  | _ :: _, [] => false
  | a :: old', c :: s' => if decide (a = c) then startswith s' old' else false
  end.

(** [s.replace(old, new)] for a non-empty [old]: leftmost occurrences, not
    overlapping, left to right.  [skip] counts the characters of a replaced
    occurrence still to drop. *)
Fixpoint replace_go (old new : str) (skip : nat) (s : str) : str :=
  match s with
  | [] => []
  | c :: t =>
    match skip with
    | S k => replace_go old new k t
    | O =>
      if startswith s old then new ++ replace_go old new (length old - 1) t
      else c :: replace_go old new 0 t
    end
  end.

(** [s.replace(old, new)]; with an empty [old] Python inserts [new] before
    every character and at the end. *)
Definition replace (s old new : str) : str :=
  match old with
  | [] => new ++ flat_map (λ c, c :: new) s
  | _ :: _ => replace_go old new 0 s
  end.

(** Comparison of two strings, [a <= b], by code points. *)
Fixpoint str_leb (a b : str) : bool :=
  match a, b with
  | [], _ => true
  | _ :: _, [] => false
  | x :: a', y :: b' =>
    if (x <? y)%N then true
    else if (x =? y)%N then str_leb a' b' else false
  end.

Definition str_lt (a b : str) : Prop := str_leb a b = true ∧ a ≠ b.

End PyStr.

Export PyStr.

(** ** The Unicode tables the program reads through the standard library *)

Class Unicode := {
  (** [str.lower] *)
  str_lower : str → str;
  (** [unicodedata.normalize('NFD', _)] *)
  normalize_NFD : str → str;
  (** [unicodedata.category(ch) == 'Mn'] *)
  category_Mn : char → bool;
  (** [ch.isalnum()], which with ['_'] makes the class [\w] of [re] *)
  char_isalnum : char → bool;
  (** [ch.isdigit()] *)
  char_isdigit : char → bool;
  (** the value of a decimal digit, as [int] reads it *)
  char_decimal : char → option Z
}.

(** ** Sorting as [list.sort] and [sorted] do it: stable *)

Section sort.
Context {A : Type} (leb : A → A → bool).

(** [x] goes before the first element it is not greater than, so before
    every equal element that followed it in the input. *)
Fixpoint insert_sorted (x : A) (l : list A) : list A :=
  match l with
  | [] => [x]
  | y :: t => if leb x y then x :: l else y :: insert_sorted x t
  end.

Definition py_sort (l : list A) : list A := foldr insert_sorted [] l.
End sort.

(** ** Python dictionaries *)

Section dict.
Context {V : Type}.
Implicit Types d : list (str * V).

(** [d.get(k)], and [d[k]] where the key is known to be there *)
Fixpoint dict_get d (k : str) : option V :=
  match d with
  | [] => None
  | (k', v) :: d' => if decide (k' = k) then Some v else dict_get d' k
  end.

(** [k in d] *)
Definition dict_in (k : str) d : bool :=
  match dict_get d k with Some _ => true | None => false end.

(** [d[k] = v]: an existing key keeps its place *)
Fixpoint dict_set d (k : str) (v : V) : list (str * V) :=
  match d with
  | [] => [(k, v)]
  | (k', v') :: d' =>
    if decide (k' = k) then (k', v) :: d' else (k', v') :: dict_set d' k v
  end.

(** [list(d)] *)
Definition dict_keys d : list str := d.*1.
End dict.

Abbreviation dict := (list (list N * Z)) (only parsing).

(** ** The regular expressions of the protocol patterns ([re]) *)

Module Re.

(** The fragment of the syntax the four pattern lists use. *)
Inductive regex :=
  | RChar (c : char)            (* a literal character *)
  | RSet (cs : list char)       (* [...] *)
  | RWordB                      (* \b *)
  | REmpty
  | RSeq (r1 r2 : regex)
  | RAlt (r1 r2 : regex)        (* r1|r2 *)
  | ROpt (r : regex).           (* r? , greedy *)

Definition is_special (c : char) : bool :=
  bool_decide (c ∈ utf8 "\()[]?*+.^${}|").

(** The characters of a set, up to the closing bracket. *)
Fixpoint parse_set (p : str) : option (list char * str) :=
  match p with
  | [] => None
  | c :: rest =>
    if decide (c = 93%N) then Some ([], rest)
    else if decide (c = 92%N ∨ c = 45%N ∨ c = 94%N ∨ c = 91%N) then None
    else '(cs, rest') ← parse_set rest; Some (c :: cs, rest')
  end.

(** [re.compile]: alternatives, sequences of atoms with an optional [?],
    atoms.  The fuel bounds the nesting and the length. *)
Fixpoint parse_alt (fuel : nat) (p : str) : option (regex * str) :=
  match fuel with
  | O => None
  | S f =>
    '(r1, rest) ← parse_seq f p;
    match rest with
    | 124%N :: rest' => '(r2, rest'') ← parse_alt f rest'; Some (RAlt r1 r2, rest'')
    | _ => Some (r1, rest)
    end
  end
with parse_seq (fuel : nat) (p : str) : option (regex * str) :=
  match fuel with
  | O => None
  | S f =>
    match p with
    | [] => Some (REmpty, [])
    | c :: _ =>
      if decide (c = 124%N ∨ c = 41%N) then Some (REmpty, p)
      else
        '(a, rest) ← parse_atom f p;
        let '(a', rest') :=
          match rest with
          | 63%N :: r => (ROpt a, r)
          | _ => (a, rest)
          end in
        '(r, rest'') ← parse_seq f rest';
        Some (RSeq a' r, rest'')
    end
  end
with parse_atom (fuel : nat) (p : str) : option (regex * str) :=
  match fuel with
  | O => None
  | S f =>
    match p with
    | 92%N :: 98%N :: rest => Some (RWordB, rest)
    | 91%N :: rest => '(cs, rest') ← parse_set rest; Some (RSet cs, rest')
    | 40%N :: 63%N :: 58%N :: rest =>
      '(r, rest') ← parse_alt f rest;
      match rest' with
      | 41%N :: rest'' => Some (r, rest'')
      | _ => None
      end
    | c :: rest => if is_special c then None else Some (RChar c, rest)
    | [] => None
    end
  end.

Definition compile (p : str) : option regex :=
  '(r, rest) ← parse_alt (S (S (length p + length p))) p;
  match rest with [] => Some r | _ => None end.

Section matching.
Context `{Unicode}.

(** [\w] *)
Definition is_word (c : char) : bool := char_isalnum c || bool_decide (c = 95%N).

Definition word_at (s : str) (i : nat) : bool :=
  match s !! i with Some c => is_word c | None => false end.

(** [\b] at position [i]: exactly one side is a word character. *)
Definition boundary (s : str) (i : nat) : bool :=
  xorb (match i with O => false | S j => word_at s j end) (word_at s i).

(** The positions where a match of [r] that starts at [i] can end, in the
    order the backtracking matcher tries them. *)
Fixpoint ends (r : regex) (s : str) (i : nat) : list nat :=
  match r with
  | RChar c => match s !! i with
               | Some c' => if decide (c' = c) then [S i] else []
               | None => []
               end
  | RSet cs => match s !! i with
               | Some c' => if decide (c' ∈ cs) then [S i] else []
               | None => []
               end
  | RWordB => if boundary s i then [i] else []
  | REmpty => [i]
  | RSeq r1 r2 => flat_map (ends r2 s) (ends r1 s i)
  | RAlt r1 r2 => ends r1 s i ++ ends r2 s i
  | ROpt r' => ends r' s i ++ [i]
  end.

(** The leftmost match at or after [pos]: the span [(start, stop)].
    [n] counts the start positions left to try. *)
Fixpoint search_from (r : regex) (s : str) (n : nat) (pos : nat) : option (nat * nat) :=
  match ends r s pos with
  | e :: _ => Some (pos, e)
  | [] => match n with
          | O => None
          | S n' => search_from r s n' (S pos)
          end
  end.

(** [bool(re.search(p, s))]; a pattern that does not compile matches
    nothing here (all the program's patterns compile, see
    [patterns_compile]). *)
Definition search (p : str) (s : str) : bool :=
  match compile p with
  | Some r => bool_decide (is_Some (search_from r s (length s) 0))
  | None => false
  end.

(** [[m.group() for m in re.finditer(p, s)]] from [pos] on; after a match
    the scan resumes where the match ended. *)
Fixpoint finditer_go (fuel : nat) (r : regex) (s : str) (pos : nat) : list str :=
  match fuel with
  | O => []
  | S f =>
    match search_from r s (length s - pos) pos with
    | Some (b, e) =>
      take (e - b) (drop b s) :: finditer_go f r s (if decide (e = b) then S e else e)
    | None => []
    end
  end.

Definition finditer (p : str) (s : str) : list str :=
  match compile p with
  | Some r => finditer_go (S (length s)) r s 0
  | None => []
  end.
End matching.

End Re.

(** ** [analysis.py] *)

Module Analysis.

(** [SALUDOS]: greetings, tried on the first line *)
Definition SALUDOS : list str := utf8 <$> [
  "\bhola\b";
  "\bbuen[oa]s?\b";
  "\bbuenos dias\b";
  "\bbuenas tardes\b";
  "\bbuenas noches\b";
  "\bfeliz dia\b";
  "\bfeliz jornada\b";
  "\bestimad[ao]s?\b";
  "\bsaludos cordiales\b";
  "\bbienvenid[oa]s?\b";
  "\bgracias por llamar\b";
  "\bgracias por contactar\b";
  "\bgracias por comunicarse\b";
  "\bgracias por elegirnos\b";
  "\bgracias por su preferencia\b";
  "\bles saluda\b";
  "\besta es la linea de\b";
  "\blínea de atencion\b";
  "\bes un placer atenderle\b";
  "\bmucho gusto en atenderle\b";
  "\ben que puedo ayudarle\b";
  "\bcomo puedo ayudarle\b";
  "\ben que le podemos ayudar\b";
  "\b¿?en que puedo asistirle\b";
  "\b¿?en que le puedo servir\b";
  "\bque tal\b";
  "\bqué tal\b";
  "\bholas\b"
]%string.

(** [ID_PATTERNS]: requests for identification, tried on the whole text *)
Definition ID_PATTERNS : list str := utf8 <$> [
  "\bnumero de documento\b";
  "\bnumero de cedula\b";
  "\bdni\b";
  "\bci\b";
  "\bdocumento de identidad\b";
  "\bnumero de cuenta\b";
  "\bnumero de cliente\b";
  "\bcodigo de cliente\b";
  "\breferencia de cliente\b";
  "\bcodigo de usuario\b";
  "\bnumero de orden\b";
  "\bnombre completo\b";
  "\bnombre y apellido\b";
  "\bapellido\b";
  "\bfecha de nacimiento\b";
  "\bnumero de telefono\b";
  "\btelefono celular\b";
  "\bwhatsapp\b";
  "\bcorreo electr[oó]nico\b";
  "\bdireccion\b";
  "\bpuede (?:darme|facilitarme|proporcionarme) su (?:numero de )?(?:documento|cedula|dni|ci|numero de cliente)\b";
  "\bpodria (?:darme|facilitarme|proporcionarme) su (?:numero de )?(?:documento|cedula|dni|ci|numero de cliente)\b";
  "\bconfirmar su (?:numero de )?(?:documento|cedula|dni|ci)\b";
  "\bpara verificar su identidad\b";
  "\bpara confirmar su cuenta\b"
]%string.

(** [PALABRAS_RUDAS]: rude words, collected over the whole text *)
Definition PALABRAS_RUDAS : list str := utf8 <$> [
  "\btonto\b";
  "\bidiota\b";
  "\best[úu]pido\b";
  "\bimb[ée]cil\b";
  "\bpendejo\b";
  "\btarado\b";
  "\bgilipollas\b";
  "\bmaldito\b";
  "\bcabr[oó]n\b";
  "\bco[ñn]o\b";
  "\bmierda\b";
  "\bpat[ée]tico\b";
  "\bdespreciable\b";
  "\bestupidez\b";
  "\bmediocre\b";
  "\babsurdo\b";
  "\batroz\b";
  "\bhorrible\b";
  "\bdesastroso\b";
  "\bp[eé]simo\b";
  "\bdefectuoso\b";
  "\bdeficiente\b";
  "\bineficiente\b";
  "\binsuficiente\b";
  "\bincompetente\b";
  "\bfraudulento\b";
  "\bterrible\b";
  "\blamentable\b";
  "\brepugnante\b";
  "\bvergonzoso\b"
]%string.

(** [DESPEDIDAS]: farewells, tried on the last line *)
Definition DESPEDIDAS : list str := utf8 <$> [
  "gracias por su tiempo\b";
  "gracias por llamar al servicio de atencion al cliente\b";
  "gracias por contactar con nosotros\b";
  "gracias por comunicarse con nosotros\b";
  "gracias por elegirnos\b";
  "muchas gracias\b";
  "muchas gracias por su preferencia\b";
  "ha sido un placer atenderle\b";
  "estamos a su disposicion\b";
  "quedo a sus ordenes\b";
  "quedo a su disposicion\b";
  "no dude en contactarnos\b";
  "hasta luego\b";
  "hasta pronto\b";
  "hasta la proxima\b";
  "hasta manana\b";
  "hasta mañana\b";
  "nos vemos\b";
  "nos mantenemos en contacto\b";
  "que tenga un buen dia\b";
  "que tenga un excelente dia\b";
  "le deseamos un buen dia\b";
  "que disfrute el resto de su dia\b";
  "que pase un buen dia\b";
  "feliz dia\b";
  "adios\b";
  "adiós\b"
]%string.

(** What [analiza_sentimiento] accumulates while it walks the words. *)
Record tally := Tally {
  total : Z;
  pos_list : list (str * Z);
  neg_list : list (str * Z);
  neut_list : list str
}.

(** What [analiza_sentimiento] returns, the fields in the order of its
    tuple. *)
Record sentiment := Sentiment {
  s_total : Z;
  pos_count : nat;
  pos_words : list str;
  top_pos_words : list str;
  top_pos_weight : Z;
  neg_count : nat;
  neg_words : list str;
  top_neg_words : list str;
  top_neg_weight : Z;
  neut_count : nat;
  neut_words : list str
}.

(** [max] and [min] of a non-empty sequence [x, *t]: the first extremum
    met is kept. *)
Definition py_max (x : Z) (t : list Z) : Z :=
  fold_left (λ m y, if (y >? m)%Z then y else m) t x.

Definition py_min (x : Z) (t : list Z) : Z :=
  fold_left (λ m y, if (y <? m)%Z then y else m) t x.

(** The body of [for w in words]: the first dictionary that has [w]
    decides. *)
Definition tally_word (positivos negativos neutros : dict) (a : tally) (w : str) : tally :=
  match dict_get positivos w with
  | Some p =>
    Tally (total a + p) (pos_list a ++ [(w, p)]) (neg_list a) (neut_list a)
  | None =>
    match dict_get negativos w with
    | Some n =>
      Tally (total a + n) (pos_list a) (neg_list a ++ [(w, n)]) (neut_list a)
    | None =>
      if dict_in w neutros
      then Tally (total a) (pos_list a) (neg_list a) (neut_list a ++ [w])
      else a
    end
  end.

Definition tally_words (words : list str) (positivos negativos neutros : dict) : tally :=
  fold_left (tally_word positivos negativos neutros) words (Tally 0 [] [] []).

Definition analiza_sentimiento
    (words : list str) (positivos negativos neutros : dict) : sentiment :=
  let a := tally_words words positivos negativos neutros in
  let '(top_pos_weight, top_pos_words) :=
    match (pos_list a).*2 with
    | p0 :: ps =>
      let top := py_max p0 ps in
      (top, (filter (λ wp, wp.2 = top) (pos_list a)).*1)
    | [] => (0%Z, [])
    end in
  let '(top_neg_weight, top_neg_words) :=
    match (neg_list a).*2 with
    | n0 :: ns =>
      let top := py_min n0 ns in
      (top, (filter (λ wn, wn.2 = top) (neg_list a)).*1)
    | [] => (0%Z, [])
    end in
  Sentiment (total a)
    (length (pos_list a)) (pos_list a).*1 top_pos_words top_pos_weight
    (length (neg_list a)) (neg_list a).*1 top_neg_words top_neg_weight
    (length (neut_list a)) (neut_list a).

(** [find_undefined]: the set comprehension, then [sorted]. *)
Definition find_undefined
    (words : list str) (positivos negativos neutros : dict) : list str :=
  py_sort str_leb
    (elements
       (list_to_set
          (filter (λ w, dict_in w positivos = false
                        ∧ dict_in w negativos = false
                        ∧ dict_in w neutros = false) words) : gset str)).

Section unicode.
Context `{Unicode}.

Definition strip_accents (text : str) : str :=
  filter (λ ch, category_Mn ch = false) (normalize_NFD text).

(** [lines[0] if lines else ''] and [lines[-1] if lines else ''] *)
Definition first_or_empty (lines : list str) : str := default [] (head lines).
Definition last_or_empty (lines : list str) : str := default [] (last lines).

(** The non-empty lines of the text, trimmed. *)
Definition trimmed_lines (clean : str) : list str :=
  filter (λ l, l ≠ []) (strip <$> splitlines clean).

(** [analiza_protocolo]: (saludo_ok, id_ok, rudas, desp_ok) *)
Definition analiza_protocolo (text : str) : bool * bool * list str * bool :=
  let clean := strip_accents (str_lower text) in
  let lines := trimmed_lines clean in
  let first := first_or_empty lines in
  let last := last_or_empty lines in
  let saludo_ok := existsb (λ p, Re.search p first) SALUDOS in
  let id_ok := existsb (λ p, Re.search p clean) ID_PATTERNS in
  let rudas := flat_map (λ p, Re.finditer p clean) PALABRAS_RUDAS in
  let desp_ok := existsb (λ p, Re.search p last) DESPEDIDAS in
  (saludo_ok, id_ok, rudas, desp_ok).
End unicode.

End Analysis.

(** ** [interactive.py] *)

Module Interactive.

(** *** The lexicon document and [save_lexicon] *)

(** What [json.load] returns and [json.dump] writes.  A [float] is carried
    as its binary64 bit pattern; an object is a [dict], so it keeps the
    order of its keys. *)
#[warnings="-register-all"] Inductive json :=
  | JNull
  | JBool (b : bool)
  | JInt (n : Z)
  | JFloat (bits : N)
  | JStr (s : str)
  | JArr (items : list json)
  | JObj (fields : list (str * json)).

Inductive exn := EOFError | ValueError | IndexError | TypeError.

Inductive result (A : Type) :=
  | Ok (a : A)
  | Raise (e : exn).
Arguments Ok {A} a.
Arguments Raise {A} e.

(** A category mapping as a JSON object. *)
Definition json_of_dict (d : dict) : json := JObj (prod_map id JInt <$> d).

(** [save_lexicon], on the document held by the file at [path]: the new
    content of the file.  Item assignment on a document that is not an
    object raises [TypeError] before the file is touched. *)
Definition save_lexicon (positivos negativos neutros : dict) (data : json)
    : result unit * json :=
  match data with
  | JObj fields =>
    let fields := dict_set fields (utf8 "positivos") (json_of_dict positivos) in
    let fields := dict_set fields (utf8 "negativos") (json_of_dict negativos) in
    let fields := dict_set fields (utf8 "neutros") (json_of_dict neutros) in
    (Ok (), JObj fields)
  | _ => (Raise TypeError, data)
  end.

(** *** [Levenshtein.distance] and [Levenshtein.hamming] *)

(** The edit distance with insertions, deletions and substitutions of cost
    one. *)
Fixpoint distance (a : str) : str → nat :=
  match a with
  | [] => λ b, length b
  | x :: a' =>
    fix distance_a (b : str) : nat :=
      match b with
      | [] => S (length a')
      | y :: b' =>
        (S (distance a' b) `min` S (distance_a b'))
          `min` ((if decide (x = y) then 0 else 1) + distance a' b')
      end
  end.

(** The number of positions at which two strings of one length differ. *)
Definition hamming (a b : str) : nat :=
  length (filter (λ xy, xy.1 ≠ xy.2) (zip a b)).

(** *** [suggest_candidates] *)

(** The second component of the sort key: a number, or [float('inf')]. *)
Inductive ham := Ham (n : nat) | Inf.

#[export] Instance ham_eq_dec : EqDecision ham.
Proof. solve_decision. Defined.

Definition ham_leb (a b : ham) : bool :=
  match a, b with
  | _, Inf => true
  | Inf, Ham _ => false
  | Ham m, Ham n => m <=? n
  end.

(** [a <= b] on the tuples [(lev, ham)]. *)
Definition key_leb (a b : nat * ham) : bool :=
  (a.1 <? b.1) || ((a.1 =? b.1) && ham_leb a.2 b.2).

Definition candidate_key (word k : str) : nat * ham :=
  (distance word k, if decide (length word = length k) then Ham (hamming word k) else Inf).

Definition suggest_candidates (word : str) (lex_keys : list str) (max_suggestions : nat)
    : list (str * (nat * ham)) :=
  let dists := (λ k, (k, candidate_key word k)) <$> lex_keys in
  take max_suggestions (py_sort (λ x y, key_leb x.2 y.2) dists).

(** *** [prompt_user] *)

(** What the loop reads and writes: the queue and the three dictionaries
    (the caller's objects, mutated in place), the content of the file at
    [path_txt], and the lines still to come from the operator. *)
Record state := State {
  undefined : list str;
  positivos : dict;
  negativos : dict;
  neutros : dict;
  transcript : str;
  stdin : list str
}.

Definition M (A : Type) : Type := state → result A * state.

#[export] Instance M_ret : MRet M := λ A a st, (Ok a, st).
#[export] Instance M_bind : MBind M := λ A B f m st,
  match m st with
  | (Ok a, st') => f a st'
  | (Raise e, st') => (Raise e, st')
  end.

#[export] Instance M_fmap : FMap M := λ A B f m st,
  match m st with
  | (Ok a, st') => (Ok (f a), st')
  | (Raise e, st') => (Raise e, st')
  end.

Definition raise {A} (e : exn) : M A := λ st, (Raise e, st).
Definition gets {A} (f : state → A) : M A := λ st, (Ok (f st), st).
Definition modify (f : state → state) : M unit := λ st, (Ok (), f st).

(** [input(...)] *)
Definition input : M str := λ st,
  match stdin st with
  | line :: rest =>
    (Ok line, State (undefined st) (positivos st) (negativos st) (neutros st)
                    (transcript st) rest)
  | [] => (Raise EOFError, st)
  end.

Definition set_undefined (q : list str) (st : state) : state :=
  State q (positivos st) (negativos st) (neutros st) (transcript st) (stdin st).
Definition set_positivos (d : dict) (st : state) : state :=
  State (undefined st) d (negativos st) (neutros st) (transcript st) (stdin st).
Definition set_negativos (d : dict) (st : state) : state :=
  State (undefined st) (positivos st) d (neutros st) (transcript st) (stdin st).
Definition set_neutros (d : dict) (st : state) : state :=
  State (undefined st) (positivos st) (negativos st) d (transcript st) (stdin st).
Definition set_transcript (t : str) (st : state) : state :=
  State (undefined st) (positivos st) (negativos st) (neutros st) t (stdin st).

(** [undefined.pop(idx)] *)
Definition pop (idx : nat) : M unit :=
  modify (λ st, set_undefined (delete idx (undefined st)) st).

(** The message one pass of the loop ends on. *)
Inductive outcome :=
  | Finished            (* Interaccion finalizada. *)
  | InvalidSelection    (* Seleccion invalida. *)
  | Added               (* Agregada ... *)
  | NotAdded            (* No se agrega (fuera de rango o ya existe). *)
  | InvalidWeight       (* Peso invalido. Sigue pendiente. *)
  | AlreadyNeutral      (* Ya existe en neutros. Sigue pendiente. *)
  | InvalidCategory     (* Categoria no valida. Sigue pendiente. *)
  | TextUpdated         (* Texto actualizado. *)
  | Omitted.            (* Omitido. Sigue pendiente. *)

Section unicode.
Context `{Unicode}.

(** [s.isdigit()] *)
Definition isdigit (s : str) : bool :=
  match s with [] => false | _ => forallb char_isdigit s end.

(** The digits of an [int] literal: decimal digits, single underscores
    between them. *)
Fixpoint int_digits (acc : Z) (after_digit : bool) (s : str) : option Z :=
  match s with
  | [] => if after_digit then Some acc else None
  | c :: t =>
    if decide (c = 95%N) then
      if after_digit then int_digits acc false t else None
    else d ← char_decimal c; int_digits (10 * acc + d) true t
  end.

(** [int(s)] in base ten; [None] is [ValueError].  The bound that recent
    interpreters put on the number of digits is left out. *)
Definition py_int (s : str) : option Z :=
  match strip s with
  | 43%N :: t => int_digits 0 false t
  | 45%N :: t => Z.opp <$> int_digits 0 false t
  | t => int_digits 0 false t
  end.

Definition int (s : str) : M Z :=
  match py_int s with
  | Some n => mret n
  | None => raise ValueError
  end.

(** [s.isdigit() and 1 <= int(s) <= n] *)
Definition in_range (s : str) (n : nat) : M bool :=
  if isdigit s then
    i ← int s; mret (bool_decide (1 ≤ i ≤ Z.of_nat n)%Z)
  else mret false.

(** [int(s) - 1] as an index, once [1 <= int(s)] is known *)
Definition index_of (s : str) : M nat :=
  i ← int s; mret (Z.to_nat (i - 1)).

(** [l[i]] *)
Definition item {A} (l : list A) (i : nat) : M A :=
  match l !! i with
  | Some x => mret x
  | None => raise IndexError
  end.

(** The Positive branch of the classification. *)
Definition classify_positive (word : str) (idx : nat) : M outcome :=
  peso ← strip <$> input;
  match py_int peso with
  | Some p =>
    pos ← gets positivos;
    if bool_decide (1 ≤ p ≤ 3)%Z && negb (dict_in word pos) then
      modify (set_positivos (dict_set pos word p));;
      pop idx;;
      mret Added
    else mret NotAdded
  | None => mret InvalidWeight
  end.

(** The Negative branch. *)
Definition classify_negative (word : str) (idx : nat) : M outcome :=
  peso ← strip <$> input;
  match py_int peso with
  | Some n =>
    neg ← gets negativos;
    if bool_decide (-3 ≤ n ≤ -1)%Z && negb (dict_in word neg) then
      modify (set_negativos (dict_set neg word n));;
      pop idx;;
      mret Added
    else mret NotAdded
  | None => mret InvalidWeight
  end.

(** The Neutral branch. *)
Definition classify_neutral (word : str) (idx : nat) : M outcome :=
  neut ← gets neutros;
  if negb (dict_in word neut) then
    modify (set_neutros (dict_set neut word 0%Z));;
    pop idx;;
    mret Added
  else mret AlreadyNeutral.

(** The suggestion branch: rank the candidates, and on a valid choice
    rewrite the whole file with every [raw] replaced. *)
Definition suggest_and_replace (lex_keys : list str) (raw word : str) (idx : nat)
    : M outcome :=
  let cands := suggest_candidates word lex_keys 5 in
  choice ← strip <$> input;
  ok ← in_range choice (length cands);
  if ok : bool then
    i ← index_of choice;
    c ← item cands i;
    let cand := c.1 in
    content ← gets transcript;
    let new_content := replace content raw cand in
    modify (set_transcript new_content);;
    pop idx;;
    mret TextUpdated
  else mret Omitted.

(** One pass of the body of [while undefined]. *)
Definition iteration (lex_keys : list str) : M outcome :=
  sel ← strip <$> input;
  if decide (sel = []) then mret Finished
  else
    queue ← gets undefined;
    ok ← in_range sel (length queue);
    if negb ok then mret InvalidSelection
    else
      idx ← index_of sel;
      raw ← item queue idx;
      let word := Analysis.strip_accents (str_lower raw) in
      valid ← input;
      if decide (str_lower (strip valid) = utf8 "s") then
        cat ← (λ s, str_lower (strip s)) <$> input;
        if decide (cat = utf8 "p") then classify_positive word idx
        else if decide (cat = utf8 "n") then classify_negative word idx
        else if decide (cat = utf8 "t") then classify_neutral word idx
        else mret InvalidCategory
      else suggest_and_replace lex_keys raw word idx.

(** [while undefined: ...], at most [fuel] passes. *)
Fixpoint loop (fuel : nat) (lex_keys : list str) : M unit :=
  match fuel with
  | O => raise EOFError
  | S fuel' =>
    queue ← gets undefined;
    match queue with
    | [] => mret ()
    | _ :: _ =>
      o ← iteration lex_keys;
      match o with
      | Finished => mret ()
      | _ => loop fuel' lex_keys
      end
    end
  end.

(** [prompt_user].  Every pass reads at least one line, so one pass more
    than there are lines is enough: see [loop_fuel]. *)
Definition prompt_user : M unit := λ st,
  let lex_keys :=
    dict_keys (positivos st) ++ dict_keys (negativos st) ++ dict_keys (neutros st) in
  loop (S (length (stdin st))) lex_keys st.
End unicode.

End Interactive.

(** ** The Unicode tables on U+0000..U+00FF *)

Module Latin1.

Definition lower_char (c : char) : char :=
  if ((65 <=? c) && (c <=? 90)
      || (192 <=? c) && (c <=? 222) && negb (c =? 215))%N
  then (c + 32)%N else c.

(** The canonical decompositions of the accented letters of Latin-1: the
    base letter, then the combining mark. *)
Definition decompositions : list (char * str) := [
  (192, [65; 768]); (193, [65; 769]); (194, [65; 770]); (195, [65; 771]);
  (196, [65; 776]); (197, [65; 778]); (199, [67; 807]); (200, [69; 768]);
  (201, [69; 769]); (202, [69; 770]); (203, [69; 776]); (204, [73; 768]);
  (205, [73; 769]); (206, [73; 770]); (207, [73; 776]); (209, [78; 771]);
  (210, [79; 768]); (211, [79; 769]); (212, [79; 770]); (213, [79; 771]);
  (214, [79; 776]); (217, [85; 768]); (218, [85; 769]); (219, [85; 770]);
  (220, [85; 776]); (221, [89; 769]); (224, [97; 768]); (225, [97; 769]);
  (226, [97; 770]); (227, [97; 771]); (228, [97; 776]); (229, [97; 778]);
  (231, [99; 807]); (232, [101; 768]); (233, [101; 769]); (234, [101; 770]);
  (235, [101; 776]); (236, [105; 768]); (237, [105; 769]); (238, [105; 770]);
  (239, [105; 776]); (241, [110; 771]); (242, [111; 768]); (243, [111; 769]);
  (244, [111; 770]); (245, [111; 771]); (246, [111; 776]); (249, [117; 768]);
  (250, [117; 769]); (251, [117; 770]); (252, [117; 776]); (253, [121; 769]);
  (255, [121; 776])
]%N.

Definition nfd_char (c : char) : str :=
  match list_find (λ e, e.1 = c) decompositions with
  | Some (_, (_, d)) => d
  | None => [c]
  end.

Definition isalnum (c : char) : bool :=
  ((48 <=? c) && (c <=? 57) || (65 <=? c) && (c <=? 90)
   || (97 <=? c) && (c <=? 122)
   || (c =? 170) || (c =? 178) || (c =? 179) || (c =? 181)
   || (c =? 185) || (c =? 186) || (188 <=? c) && (c <=? 190)
   || (192 <=? c) && (c <=? 214) || (216 <=? c) && (c <=? 246)
   || (248 <=? c) && (c <=? 255))%N.

Definition isdigit_char (c : char) : bool :=
  ((48 <=? c) && (c <=? 57) || (c =? 178) || (c =? 179) || (c =? 185))%N.

Definition decimal (c : char) : option Z :=
  if ((48 <=? c) && (c <=? 57))%N then Some (Z.of_N c - 48)%Z else None.

(** The combining diacritical marks U+0300..U+036F, the only marks a
    decomposition above produces. *)
Definition is_Mn (c : char) : bool := ((768 <=? c) && (c <=? 879))%N.

#[export] Instance latin1 : Unicode := {|
  str_lower := map lower_char;
  normalize_NFD := flat_map nfd_char;
  category_Mn := is_Mn;
  char_isalnum := isalnum;
  char_isdigit := isdigit_char;
  char_decimal := decimal
|}.

End Latin1.

(** ** Sample data: the scenarios of the specification *)

Module Samples.

Definition el : str := utf8 "el".
Definition servicio : str := utf8 "servicio".
Definition fue : str := utf8 "fue".
Definition excelente : str := utf8 "excelente".
Definition terrible : str := utf8 "terrible".
Definition bueno : str := utf8 "bueno".
Definition gracias : str := utf8 "gracias".
Definition grasias : str := utf8 "grasias".

(** A lexicon whose mappings overlap: [bueno] is in all three. *)
Definition positivos : dict := [(excelente, 3%Z); (bueno, 2%Z); (gracias, 1%Z)].
Definition negativos : dict := [(terrible, (-3)%Z); (bueno, (-1)%Z)].
Definition neutros : dict := [(el, 0%Z); (bueno, 0%Z)].

Definition words : list str :=
  [el; servicio; fue; excelente; bueno; terrible; bueno; el; gracias].

(** The keys of the lexicon, as [prompt_user] lists them. *)
Definition lex_keys : list str :=
  dict_keys positivos ++ dict_keys negativos ++ dict_keys neutros.

(** A call that opens with a greeting and closes with a farewell, and one
    whose only greeting and farewell are on middle lines. *)
Definition call_ok : str := utf8 "Hola, buenas tardes.
  Podria darme su numero de cedula?

Gracias por su tiempo.
".
Definition call_middle : str := utf8 "Señor
hola, buenos dias
adiós, hasta luego
cómo está".

(** A lexicon document with two fields besides the three mappings and a
    stale [negativos]. *)
Definition document : Interactive.json :=
  Interactive.JObj
    [(utf8 "version", Interactive.JInt 3);
     (utf8 "negativos", Interactive.JObj [(terrible, Interactive.JInt (-2))]);
     (utf8 "autores", Interactive.JArr [Interactive.JStr (utf8 "equipo"); Interactive.JNull])].

(** Three sessions of the resolver.  [bueno] is in Positive only and the
    operator files it under Negative with weight -1; the same word filed
    under Positive again; the typo [grasias] corrected with the first
    candidate. *)
Definition text : str := utf8 "Muchas grasias, fue bueno. Grasias por todo, grasiasss".



Definition typo : Interactive.state :=
  Interactive.State [bueno; grasias] positivos negativos neutros text
    (utf8 <$> ["2"; "n"; "1"; ""]%string).

End Samples.

(** ** Vocabulary of the statements *)

Module Spec.

Definition sumZ (l : list Z) : Z := foldr Z.add 0%Z l.

(** How many times [w] occurs in [l]. *)
Definition occurrences (w : str) (l : list str) : nat :=
  length (filter (λ x, x = w) l).

(** The positive hits of a token sequence: the tokens the Positive mapping
    has, each with its weight, in order and with repetitions. *)
Definition positive_hits (words : list str) (positivos : dict) : list (str * Z) :=
  omap (λ w, pair w <$> dict_get positivos w) words.

(** The negative hits: the tokens Positive does not have and Negative has. *)
Definition negative_hits (words : list str) (positivos negativos : dict) : list (str * Z) :=
  omap (λ w, if dict_in w positivos then None else pair w <$> dict_get negativos w) words.

(** The neutral hits: the tokens only Neutral has. *)
Definition neutral_hits (words : list str) (positivos negativos neutros : dict) : list str :=
  filter (λ w, dict_in w positivos = false ∧ dict_in w negativos = false
               ∧ dict_in w neutros = true) words.

(** [m] is the greatest, or the least, element of [l]. *)
Definition is_maximum (m : Z) (l : list Z) : Prop := m ∈ l ∧ ∀ p, p ∈ l → (p ≤ m)%Z.
Definition is_minimum (m : Z) (l : list Z) : Prop := m ∈ l ∧ ∀ n, n ∈ l → (m ≤ n)%Z.



(** The lines of a text, each trimmed. *)
Definition stripped_lines (clean : str) : list str := strip <$> splitlines clean.

(** [l] is the first line of [clean] that is not empty once trimmed. *)
Definition first_nonempty_line (clean l : str) : Prop :=
  ∃ i, stripped_lines clean !! i = Some l ∧ l ≠ []
       ∧ ∀ j, j < i → stripped_lines clean !! j = Some [].

(** [l] is the last such line. *)
Definition last_nonempty_line (clean l : str) : Prop :=
  ∃ i, stripped_lines clean !! i = Some l ∧ l ≠ []
       ∧ ∀ j, i < j → j < length (stripped_lines clean) →
              stripped_lines clean !! j = Some [].

(** No line of [clean] has anything but whitespace. *)
Definition no_nonempty_line (clean : str) : Prop :=
  ∀ l, l ∈ stripped_lines clean → l = [].




(** [sep.join(pieces)] *)
Fixpoint str_join (sep : str) (pieces : list str) : str :=
  match pieces with
  | [] => []
  | p :: ps =>
    match ps with
    | [] => p
    | _ :: _ => p ++ sep ++ str_join sep ps
    end
  end.

(** [old] occurs in [s]. *)
Definition occurs (old s : str) : Prop := ∃ a b, s = a ++ old ++ b.

(** [pieces] is what lies between the occurrences of [old] that a scan from
    the left meets, each occurrence starting where the one before ended:
    [old] does not begin in a piece that another follows, and does not
    occur in the last one. *)
Fixpoint is_split (old : str) (pieces : list str) : Prop :=
  match pieces with
  | [] => False
  | p :: ps =>
    match ps with
    | [] => ¬ occurs old p
    | _ :: _ => (∀ a b, p ++ old = a ++ old ++ b → a = p) ∧ is_split old ps
    end
  end.

(** Two states of the resolver with the same queue, lexicon and file; the
    lines read from the operator apart. *)
Definition same_data (st st' : Interactive.state) : Prop :=
  Interactive.undefined st' = Interactive.undefined st
  ∧ Interactive.positivos st' = Interactive.positivos st
  ∧ Interactive.negativos st' = Interactive.negativos st
  ∧ Interactive.neutros st' = Interactive.neutros st
  ∧ Interactive.transcript st' = Interactive.transcript st.

(** The selected word was inserted into one category, with a weight the
    category admits and without being there before, and left the queue. *)
Definition classified (word : str) (idx : nat) (st st' : Interactive.state) : Prop :=
  Interactive.undefined st' = delete idx (Interactive.undefined st)
  ∧ Interactive.transcript st' = Interactive.transcript st
  ∧ ((∃ p, (1 ≤ p ≤ 3)%Z
           ∧ dict_in word (Interactive.positivos st) = false
           ∧ Interactive.positivos st' = dict_set (Interactive.positivos st) word p
           ∧ Interactive.negativos st' = Interactive.negativos st
           ∧ Interactive.neutros st' = Interactive.neutros st)
     ∨ (∃ n, (-3 ≤ n ≤ -1)%Z
             ∧ dict_in word (Interactive.negativos st) = false
             ∧ Interactive.positivos st' = Interactive.positivos st
             ∧ Interactive.negativos st' = dict_set (Interactive.negativos st) word n
             ∧ Interactive.neutros st' = Interactive.neutros st)
     ∨ (dict_in word (Interactive.neutros st) = false
        ∧ Interactive.positivos st' = Interactive.positivos st
        ∧ Interactive.negativos st' = Interactive.negativos st
        ∧ Interactive.neutros st' = dict_set (Interactive.neutros st) word 0%Z)).

(** A candidate was accepted: the file was rewritten with [raw] replaced by
    it, and the selected word left the queue. *)
Definition replaced (lex_keys : list str) (raw word : str) (idx : nat)
    (st st' : Interactive.state) : Prop :=
  Interactive.undefined st' = delete idx (Interactive.undefined st)
  ∧ Interactive.positivos st' = Interactive.positivos st
  ∧ Interactive.negativos st' = Interactive.negativos st
  ∧ Interactive.neutros st' = Interactive.neutros st
  ∧ ∃ cand, cand ∈ (Interactive.suggest_candidates word lex_keys 5).*1
            ∧ Interactive.transcript st'
              = replace (Interactive.transcript st) raw cand.

(** The state once [n] lines have been read. *)
Definition after_reading (n : nat) (st : Interactive.state) : Interactive.state :=
  Interactive.State
    (Interactive.undefined st) (Interactive.positivos st) (Interactive.negativos st)
    (Interactive.neutros st) (Interactive.transcript st)
    (drop n (Interactive.stdin st)).

(** What one pass, or one branch of it, does when it does not end on the
    message of a success: nothing to the data. *)
Definition nothing_done (st : Interactive.state)
    (res : Interactive.result Interactive.outcome * Interactive.state) : Prop :=
  same_data st res.2
  ∧ res.1 ≠ Interactive.Ok Interactive.Added
  ∧ res.1 ≠ Interactive.Ok Interactive.TextUpdated.

(** A computation of the resolver that only consumes lines of the
    operator. *)
Definition consumes {A} (m : Interactive.M A) : Prop :=
  ∀ st, length (Interactive.stdin (m st).2) ≤ length (Interactive.stdin st).


End Spec.

Import Spec.

(** The examples below evaluate with the tables of [Latin1]. *)
Import Latin1.

(** * Properties *)

(** ** Sorting *)

Section sort_facts.
Context {A : Type} (leb : A → A → bool).
Hypothesis leb_total : ∀ x y, leb x y = false → leb y x = true.
Hypothesis leb_trans : ∀ x y z, leb x y = true → leb y z = true → leb x z = true.

Lemma insert_sorted_perm x l : insert_sorted leb x l ≡ₚ x :: l.
Proof.
  induction l as [|y l IH]; simpl; [done|].
  destruct (leb x y); [done|]. by rewrite IH, Permutation_swap.
Qed.

Lemma py_sort_perm l : py_sort leb l ≡ₚ l.
Proof.
  induction l as [|x l IH]; simpl; [done|].
  by rewrite insert_sorted_perm, IH.
Qed.

Lemma insert_sorted_sorted x l :
  StronglySorted (λ a b, leb a b = true) l →
  StronglySorted (λ a b, leb a b = true) (insert_sorted leb x l).
Proof.
  induction 1 as [|y l Hs IH Hy]; simpl; [repeat constructor|].
  destruct (leb x y) eqn:Hxy.
  - constructor; [by constructor|]. constructor; [done|].
    eapply Forall_impl; [exact Hy|]. intros z Hz. by eapply leb_trans.
  - constructor; [done|]. rewrite insert_sorted_perm. constructor; auto.
Qed.

Lemma py_sort_sorted l : StronglySorted (λ a b, leb a b = true) (py_sort leb l).
Proof.
  induction l as [|x l IH]; simpl; [constructor|]. by apply insert_sorted_sorted.
Qed.

End sort_facts.

(** ** Dictionaries *)

Section dict_facts.
Context {V : Type}.
Implicit Types d : list (str * V).

Lemma dict_in_get k d : dict_in k d = true ↔ is_Some (dict_get d k).
Proof.
  unfold dict_in. destruct (dict_get d k); split; [eauto|done|done|].
  by intros [? ?].
Qed.

Lemma dict_in_false k d : dict_in k d = false ↔ dict_get d k = None.
Proof. unfold dict_in. by destruct (dict_get d k). Qed.



Lemma dict_set_fresh d k v : dict_get d k = None → dict_set d k v = d ++ [(k, v)].
Proof.
  induction d as [|[k0 v0] d IH]; simpl; [done|].
  destruct (decide (k0 = k)); [done|]. intros Hd. by rewrite IH.
Qed.
End dict_facts.

(** ** The scorer *)

Section scorer_facts.
Import Analysis.
Implicit Types (words : list str) (positivos negativos neutros : dict).

Lemma positive_hits_cons w words positivos :
  positive_hits (w :: words) positivos =
  match dict_get positivos w with
  | Some p => (w, p) :: positive_hits words positivos
  | None => positive_hits words positivos
  end.
Proof. unfold positive_hits. simpl. by destruct (dict_get positivos w). Qed.

Lemma negative_hits_cons w words positivos negativos :
  negative_hits (w :: words) positivos negativos =
  match dict_get positivos w, dict_get negativos w with
  | None, Some n => (w, n) :: negative_hits words positivos negativos
  | _, _ => negative_hits words positivos negativos
  end.
Proof.
  unfold negative_hits, dict_in. simpl.
  by destruct (dict_get positivos w), (dict_get negativos w).
Qed.

Lemma neutral_hits_cons w words positivos negativos neutros :
  neutral_hits (w :: words) positivos negativos neutros =
  match dict_get positivos w, dict_get negativos w, dict_get neutros w with
  | None, None, Some _ => w :: neutral_hits words positivos negativos neutros
  | _, _, _ => neutral_hits words positivos negativos neutros
  end.
Proof.
  unfold neutral_hits, dict_in.
  destruct (dict_get positivos w) eqn:Hp, (dict_get negativos w) eqn:Hn,
    (dict_get neutros w) eqn:Hz;
    first [ rewrite filter_cons_True; [done|by rewrite Hp, Hn, Hz]
          | rewrite filter_cons_False; [done|rewrite Hp, Hn, Hz; by intros (? & ? & ?)] ].
Qed.

Lemma sumZ_cons x l : sumZ (x :: l) = (x + sumZ l)%Z.
Proof. done. Qed.

Lemma sumZ_app l1 l2 : sumZ (l1 ++ l2) = (sumZ l1 + sumZ l2)%Z.
Proof.
  induction l1 as [|x l1 IH]; [done|].
  rewrite <- app_comm_cons, !sumZ_cons, IH. lia.
Qed.

Lemma tally_fold words positivos negativos neutros a :
  fold_left (tally_word positivos negativos neutros) words a =
  Tally (total a + (sumZ (positive_hits words positivos).*2
                    + sumZ (negative_hits words positivos negativos).*2))
        (pos_list a ++ positive_hits words positivos)
        (neg_list a ++ negative_hits words positivos negativos)
        (neut_list a ++ neutral_hits words positivos negativos neutros).
Proof.
  revert a. induction words as [|w words IH]; intros [t pl nl ul].
  - simpl. by rewrite Z.add_0_r, !app_nil_r.
  - cbn [fold_left]. rewrite IH.
    rewrite positive_hits_cons, negative_hits_cons, neutral_hits_cons.
    unfold tally_word, dict_in.
    destruct (dict_get positivos w) as [p|]; cbn [total pos_list neg_list neut_list].
    { rewrite fmap_cons, sumZ_cons, <- app_assoc. f_equal. simpl. lia. }
    destruct (dict_get negativos w) as [n|]; cbn [total pos_list neg_list neut_list].
    { rewrite fmap_cons, sumZ_cons, <- app_assoc. f_equal. simpl. lia. }
    destruct (dict_get neutros w) as [z|]; cbn [total pos_list neg_list neut_list].
    + by rewrite <- app_assoc.
    + done.
Qed.

Lemma tally_words_hits words positivos negativos neutros :
  tally_words words positivos negativos neutros =
  Tally (sumZ (positive_hits words positivos).*2
         + sumZ (negative_hits words positivos negativos).*2)
        (positive_hits words positivos)
        (negative_hits words positivos negativos)
        (neutral_hits words positivos negativos neutros).
Proof. unfold tally_words. by rewrite tally_fold. Qed.

Lemma py_max_fold x t m :
  is_maximum m (x :: t) →
  ∀ l, is_maximum (py_max m l) (x :: t ++ l).
Proof.
  intros Hm l. revert t m Hm. unfold py_max.
  induction l as [|y l IH]; intros t m Hm; simpl.
  - by rewrite app_nil_r.
  - replace (x :: t ++ y :: l) with (x :: (t ++ [y]) ++ l)
      by (by rewrite <- app_assoc).
    apply IH. destruct Hm as [Hin Hle].
    destruct (y >? m)%Z eqn:Hy; split.
    + rewrite app_comm_cons. apply elem_of_app. right. by apply list_elem_of_singleton.
    + intros p. rewrite app_comm_cons, elem_of_app, list_elem_of_singleton.
      intros [Hp%Hle| ->]; lia.
    + rewrite app_comm_cons. apply elem_of_app. by left.
    + intros p. rewrite app_comm_cons, elem_of_app, list_elem_of_singleton.
      intros [Hp%Hle| ->]; lia.
Qed.

Lemma py_max_is_maximum x t : is_maximum (py_max x t) (x :: t).
Proof.
  apply (py_max_fold x [] x).
  split; [by left|]. intros p ->%list_elem_of_singleton. lia.
Qed.

Lemma py_min_fold x t m :
  is_minimum m (x :: t) →
  ∀ l, is_minimum (py_min m l) (x :: t ++ l).
Proof.
  intros Hm l. revert t m Hm. unfold py_min.
  induction l as [|y l IH]; intros t m Hm; simpl.
  - by rewrite app_nil_r.
  - replace (x :: t ++ y :: l) with (x :: (t ++ [y]) ++ l)
      by (by rewrite <- app_assoc).
    apply IH. destruct Hm as [Hin Hle].
    destruct (y <? m)%Z eqn:Hy; split.
    + rewrite app_comm_cons. apply elem_of_app. right. by apply list_elem_of_singleton.
    + intros p. rewrite app_comm_cons, elem_of_app, list_elem_of_singleton.
      intros [Hp%Hle| ->]; lia.
    + rewrite app_comm_cons. apply elem_of_app. by left.
    + intros p. rewrite app_comm_cons, elem_of_app, list_elem_of_singleton.
      intros [Hp%Hle| ->]; lia.
Qed.

Lemma py_min_is_minimum x t : is_minimum (py_min x t) (x :: t).
Proof.
  apply (py_min_fold x [] x).
  split; [by left|]. intros p ->%list_elem_of_singleton. lia.
Qed.

Lemma sentiment_fields words positivos negativos neutros :
  let r := analiza_sentimiento words positivos negativos neutros in
  s_total r = (sumZ (positive_hits words positivos).*2
               + sumZ (negative_hits words positivos negativos).*2)%Z
  ∧ pos_words r = (positive_hits words positivos).*1
  ∧ neg_words r = (negative_hits words positivos negativos).*1
  ∧ neut_words r = neutral_hits words positivos negativos neutros
  ∧ pos_count r = length (positive_hits words positivos)
  ∧ neg_count r = length (negative_hits words positivos negativos)
  ∧ neut_count r = length (neutral_hits words positivos negativos neutros).
Proof.
  unfold analiza_sentimiento. rewrite tally_words_hits. simpl.
  by destruct ((positive_hits words positivos).*2),
    ((negative_hits words positivos negativos).*2).
Qed.

Lemma occurrences_cons w x l :
  occurrences w (x :: l) = (if decide (x = w) then 1 else 0) + occurrences w l.
Proof.
  unfold occurrences. destruct (decide (x = w)).
  - by rewrite filter_cons_True.
  - by rewrite filter_cons_False.
Qed.

Lemma occurrences_app w l1 l2 :
  occurrences w (l1 ++ l2) = occurrences w l1 + occurrences w l2.
Proof. unfold occurrences. by rewrite filter_app, length_app. Qed.

Lemma occurrences_zero w l : occurrences w l = 0 ↔ w ∉ l.
Proof.
  induction l as [|x l IH]; [split; [intros _; apply not_elem_of_nil|done]|].
  rewrite occurrences_cons, not_elem_of_cons.
  destruct (decide (x = w)) as [->|Hne]; [split; [lia|tauto]|].
  rewrite <- IH. split; [intros ?; split; [done|lia]|intros [_ ->]; lia].
Qed.

Lemma occurrences_positive w words positivos :
  occurrences w (positive_hits words positivos).*1 =
  if dict_in w positivos then occurrences w words else 0.
Proof.
  unfold dict_in. induction words as [|x words IH].
  { by destruct (dict_get positivos w). }
  rewrite positive_hits_cons, (occurrences_cons w x words).
  destruct (decide (x = w)) as [->|Hne].
  - destruct (dict_get positivos w); [|done].
    by rewrite fmap_cons, occurrences_cons, decide_True, IH.
  - destruct (dict_get positivos x); [|done].
    by rewrite fmap_cons, occurrences_cons, decide_False, IH.
Qed.

Lemma occurrences_negative w words positivos negativos :
  occurrences w (negative_hits words positivos negativos).*1 =
  if dict_in w positivos then 0
  else if dict_in w negativos then occurrences w words else 0.
Proof.
  unfold dict_in. induction words as [|x words IH].
  { by destruct (dict_get positivos w), (dict_get negativos w). }
  rewrite negative_hits_cons, (occurrences_cons w x words).
  destruct (decide (x = w)) as [->|Hne].
  - destruct (dict_get positivos w); [done|].
    destruct (dict_get negativos w); [|done].
    by rewrite fmap_cons, occurrences_cons, decide_True, IH.
  - destruct (dict_get positivos x), (dict_get negativos x); try done.
    by rewrite fmap_cons, occurrences_cons, decide_False, IH.
Qed.

Lemma occurrences_neutral w words positivos negativos neutros :
  occurrences w (neutral_hits words positivos negativos neutros) =
  if dict_in w positivos then 0
  else if dict_in w negativos then 0
  else if dict_in w neutros then occurrences w words else 0.
Proof.
  unfold dict_in. induction words as [|x words IH].
  { by destruct (dict_get positivos w), (dict_get negativos w), (dict_get neutros w). }
  rewrite neutral_hits_cons, (occurrences_cons w x words).
  destruct (decide (x = w)) as [->|Hne].
  - destruct (dict_get positivos w); [done|].
    destruct (dict_get negativos w); [done|].
    destruct (dict_get neutros w); [|done].
    by rewrite occurrences_cons, decide_True, IH.
  - destruct (dict_get positivos x), (dict_get negativos x), (dict_get neutros x);
      try done.
    by rewrite occurrences_cons, decide_False, IH.
Qed.

Lemma hits_length words positivos negativos neutros :
  length (positive_hits words positivos)
  + length (negative_hits words positivos negativos)
  + length (neutral_hits words positivos negativos neutros) ≤ length words.
Proof.
  induction words as [|x words IH]; [done|].
  rewrite positive_hits_cons, negative_hits_cons, neutral_hits_cons.
  destruct (dict_get positivos x), (dict_get negativos x), (dict_get neutros x);
    simpl; lia.
Qed.

Lemma positive_hits_app ws1 ws2 positivos :
  positive_hits (ws1 ++ ws2) positivos =
  positive_hits ws1 positivos ++ positive_hits ws2 positivos.
Proof. apply omap_app. Qed.

Lemma negative_hits_app ws1 ws2 positivos negativos :
  negative_hits (ws1 ++ ws2) positivos negativos =
  negative_hits ws1 positivos negativos ++ negative_hits ws2 positivos negativos.
Proof. apply omap_app. Qed.

(** C3.  The total is the sum of the weights of the positive hits plus the
    sum of the weights of the negative hits; it does not depend on the
    Neutral mapping, and a token counted as neutral (Neutral has it, Positive
    and Negative do not) can be inserted anywhere without changing it; on
    the empty sequence every count, weight and the total are zero and every
    list is empty. *)
Theorem scorer_total words positivos negativos neutros :
  let r := analiza_sentimiento words positivos negativos neutros in
  s_total r = (sumZ (positive_hits words positivos).*2
               + sumZ (negative_hits words positivos negativos).*2)%Z
  ∧ pos_words r = (positive_hits words positivos).*1
  ∧ neg_words r = (negative_hits words positivos negativos).*1
  ∧ (∀ neutros',
       s_total (analiza_sentimiento words positivos negativos neutros') = s_total r)
  ∧ (∀ w before after,
       dict_in w neutros = true →
       dict_in w positivos = false → dict_in w negativos = false →
       words = before ++ after →
       s_total (analiza_sentimiento (before ++ w :: after) positivos negativos neutros)
       = s_total r)
  ∧ analiza_sentimiento [] positivos negativos neutros
    = Sentiment 0 0 [] [] 0 0 [] [] 0 0 [].
Proof.
  intros r.
  destruct (sentiment_fields words positivos negativos neutros)
    as (Ht & Hp & Hn & _). fold r in Ht, Hp, Hn.
  split_and!; try done.
  - intros neutros'. rewrite Ht.
    by destruct (sentiment_fields words positivos negativos neutros') as (-> & _).
  - intros w before after _ Hwp Hwn ->.
    destruct (sentiment_fields (before ++ w :: after) positivos negativos neutros)
      as (-> & _).
    rewrite Ht, !positive_hits_app, !negative_hits_app.
    rewrite positive_hits_cons, negative_hits_cons.
    apply dict_in_false in Hwp, Hwn. by rewrite Hwp, Hwn.
Qed.

(** C4.  With positive hits, [top_pos_weight] is the greatest of their
    weights and [top_pos_words] lists, in order, exactly the hits of that
    weight; without, they are 0 and empty.  The same for the negative hits
    and the least weight. *)
Theorem scorer_extrema words positivos negativos neutros :
  let r := analiza_sentimiento words positivos negativos neutros in
  let pos := positive_hits words positivos in
  let neg := negative_hits words positivos negativos in
  (pos ≠ [] →
     is_maximum (top_pos_weight r) pos.*2
     ∧ top_pos_words r = (filter (λ wp, wp.2 = top_pos_weight r) pos).*1
     ∧ ∀ w, w ∈ top_pos_words r ↔ (w, top_pos_weight r) ∈ pos)
  ∧ (pos = [] → top_pos_weight r = 0%Z ∧ top_pos_words r = [])
  ∧ (neg ≠ [] →
     is_minimum (top_neg_weight r) neg.*2
     ∧ top_neg_words r = (filter (λ wn, wn.2 = top_neg_weight r) neg).*1
     ∧ ∀ w, w ∈ top_neg_words r ↔ (w, top_neg_weight r) ∈ neg)
  ∧ (neg = [] → top_neg_weight r = 0%Z ∧ top_neg_words r = []).
Proof.
  intros r pos neg. subst r. unfold analiza_sentimiento.
  rewrite tally_words_hits. cbn [pos_list neg_list]. fold pos neg.
  assert (Hmem : ∀ (l : list (str * Z)) (top : Z) w,
    w ∈ (filter (λ wp, wp.2 = top) l).*1 ↔ (w, top) ∈ l).
  { intros l top w. rewrite list_elem_of_fmap. split.
    - intros ([w' p] & -> & [Hp Hin]%list_elem_of_filter). simpl in *. by subst.
    - intros Hin. exists (w, top). split; [done|]. by apply list_elem_of_filter. }
  destruct (pos.*2) as [|p0 ps] eqn:Hps, (neg.*2) as [|n0 ns] eqn:Hns;
    cbn [top_pos_weight top_pos_words top_neg_weight top_neg_words];
    split_and!; intros H; try done;
    try (by destruct H; eapply fmap_nil_inv);
    try (by subst pos neg; rewrite H in *).
  all: split_and!; [first [apply py_max_is_maximum|apply py_min_is_minimum]|done|apply Hmem].
Qed.

(** C10.  Each occurrence of a token is counted under at most one
    category, Positive first, then Negative, then Neutral, whether or not
    the mappings are disjoint. *)
Theorem scorer_precedence w words positivos negativos neutros :
  let r := analiza_sentimiento words positivos negativos neutros in
  pos_count r + neg_count r + neut_count r ≤ length words
  ∧ occurrences w (pos_words r) + occurrences w (neg_words r)
    + occurrences w (neut_words r) ≤ occurrences w words
  ∧ (dict_in w positivos = true →
       occurrences w (pos_words r) = occurrences w words
       ∧ (w ∉ neg_words r) ∧ (w ∉ neut_words r))
  ∧ (dict_in w positivos = false → dict_in w negativos = true →
       occurrences w (neg_words r) = occurrences w words
       ∧ (w ∉ pos_words r) ∧ (w ∉ neut_words r))
  ∧ (dict_in w positivos = false → dict_in w negativos = false →
     dict_in w neutros = true →
       occurrences w (neut_words r) = occurrences w words
       ∧ (w ∉ pos_words r) ∧ (w ∉ neg_words r))
  ∧ (dict_in w positivos = false → dict_in w negativos = false →
     dict_in w neutros = false →
       (w ∉ pos_words r) ∧ (w ∉ neg_words r) ∧ (w ∉ neut_words r)).
Proof.
  intros r.
  destruct (sentiment_fields words positivos negativos neutros)
    as (_ & Hp & Hn & Hu & Hcp & Hcn & Hcu). fold r in Hp, Hn, Hu, Hcp, Hcn, Hcu.
  rewrite Hp, Hn, Hu, Hcp, Hcn, Hcu.
  rewrite <- !occurrences_zero.
  rewrite occurrences_positive, occurrences_negative, occurrences_neutral.
  split; [apply hits_length|].
  destruct (dict_in w positivos), (dict_in w negativos), (dict_in w neutros);
    split_and!; intros; try done; lia.
Qed.
End scorer_facts.

Lemma scorer_total_witness :
  Analysis.s_total (Analysis.analiza_sentimiento
             ([Samples.servicio] ++ Samples.el :: [Samples.excelente; Samples.terrible])
             Samples.positivos Samples.negativos Samples.neutros)
  = Analysis.s_total (Analysis.analiza_sentimiento
               ([Samples.servicio] ++ [Samples.excelente; Samples.terrible])
               Samples.positivos Samples.negativos Samples.neutros).
Proof.
  refine (proj1 (proj2 (proj2 (proj2 (proj2
    (scorer_total _ Samples.positivos Samples.negativos Samples.neutros)))))
    Samples.el [Samples.servicio] [Samples.excelente; Samples.terrible] _ _ _ _);
    reflexivity.
Defined.

Lemma scorer_extrema_witness :
  positive_hits Samples.words Samples.positivos ≠ []
  ∧ is_maximum
      (Analysis.top_pos_weight
         (Analysis.analiza_sentimiento Samples.words
            Samples.positivos Samples.negativos Samples.neutros))
      (positive_hits Samples.words Samples.positivos).*2.
Proof.
  assert (H : positive_hits Samples.words Samples.positivos ≠ []) by (vm_compute; discriminate).
  split; [exact H|].
  exact (proj1 (proj1 (scorer_extrema Samples.words
    Samples.positivos Samples.negativos Samples.neutros) H)).
Defined.

Lemma scorer_precedence_witness :
  dict_in Samples.bueno Samples.positivos = true
  ∧ occurrences Samples.bueno
      (Analysis.pos_words
         (Analysis.analiza_sentimiento Samples.words
            Samples.positivos Samples.negativos Samples.neutros))
    = occurrences Samples.bueno Samples.words.
Proof.
  split; [reflexivity|].
  exact (proj1 (proj1 (proj2 (proj2 (scorer_precedence Samples.bueno Samples.words
    Samples.positivos Samples.negativos Samples.neutros))) eq_refl)).
Defined.

(** ** The undefined words *)

Section undefined_facts.
Import Analysis.

Lemma str_leb_total a b : str_leb a b = false → str_leb b a = true.
Proof.
  revert b. induction a as [|x a IH]; intros [|y b]; simpl; try done.
  destruct (N.ltb_spec x y), (N.eqb_spec x y), (N.ltb_spec y x), (N.eqb_spec y x);
    try done; try lia. apply IH.
Qed.

Lemma str_leb_trans a b c :
  str_leb a b = true → str_leb b c = true → str_leb a c = true.
Proof.
  revert b c. induction a as [|x a IH]; intros [|y b] [|z c]; simpl; try done.
  destruct (N.ltb_spec x y), (N.eqb_spec x y), (N.ltb_spec y z), (N.eqb_spec y z),
    (N.ltb_spec x z), (N.eqb_spec x z); try done; try lia. apply IH.
Qed.

Lemma str_leb_antisym a b : str_leb a b = true → str_leb b a = true → a = b.
Proof.
  revert b. induction a as [|x a IH]; intros [|y b]; simpl; try done.
  destruct (N.ltb_spec x y), (N.eqb_spec x y), (N.ltb_spec y x), (N.eqb_spec y x);
    try done; try lia. intros. f_equal; [done|]. by apply IH.
Qed.

(** A sorted list without repetition increases strictly. *)
Lemma sorted_nodup_strict (l : list str) :
  StronglySorted (λ a b, str_leb a b = true) l → NoDup l → StronglySorted str_lt l.
Proof.
  induction 1 as [|x l Hs IH Hx]; intros Hnd; [constructor|].
  apply NoDup_cons in Hnd as [Hx' Hnd]. constructor; [by apply IH|].
  apply Forall_forall. intros y Hy. split.
  - by eapply Forall_forall in Hx.
  - by intros ->.
Qed.

(** C6.  The list of undefined words increases strictly in the order of
    strings, so it is sorted and has no word twice; a word is in it exactly
    when it is a token that none of the three mappings has, and a token some
    mapping has is never listed. *)
Theorem find_undefined_spec words positivos negativos neutros :
  let u := find_undefined words positivos negativos neutros in
  StronglySorted str_lt u
  ∧ NoDup u
  ∧ (∀ w, w ∈ u ↔
          w ∈ words ∧ dict_in w positivos = false
          ∧ dict_in w negativos = false ∧ dict_in w neutros = false)
  ∧ (∀ w, dict_in w positivos = true ∨ dict_in w negativos = true
          ∨ dict_in w neutros = true → w ∉ u).
Proof.
  intros u.
  assert (Hperm : u ≡ₚ elements (list_to_set (C := gset str)
            (filter (λ w, dict_in w positivos = false ∧ dict_in w negativos = false
                          ∧ dict_in w neutros = false) words)))
    by apply py_sort_perm.
  assert (Hnd : NoDup u) by (rewrite Hperm; apply NoDup_elements).
  assert (Hiff : ∀ w, w ∈ u ↔
          w ∈ words ∧ dict_in w positivos = false
          ∧ dict_in w negativos = false ∧ dict_in w neutros = false).
  { intros w. rewrite Hperm, elem_of_elements, elem_of_list_to_set, list_elem_of_filter.
    tauto. }
  split_and!; [|done|done|].
  - apply sorted_nodup_strict; [|done].
    apply py_sort_sorted; [apply str_leb_total|apply str_leb_trans].
  - intros w Hw (_ & Hp & Hn & Hz)%Hiff. rewrite Hp, Hn, Hz in Hw.
    by destruct Hw as [|[|]].
Qed.
End undefined_facts.

Lemma find_undefined_spec_witness :
  (dict_in Samples.bueno Samples.positivos = true
   ∨ dict_in Samples.bueno Samples.negativos = true
   ∨ dict_in Samples.bueno Samples.neutros = true)
  ∧ Samples.bueno ∉ Analysis.find_undefined Samples.words
                      Samples.positivos Samples.negativos Samples.neutros.
Proof.
  assert (H : dict_in Samples.bueno Samples.positivos = true
              ∨ dict_in Samples.bueno Samples.negativos = true
              ∨ dict_in Samples.bueno Samples.neutros = true) by (left; reflexivity).
  split; [exact H|].
  exact (proj2 (proj2 (proj2 (find_undefined_spec Samples.words
    Samples.positivos Samples.negativos Samples.neutros))) Samples.bueno H).
Defined.

(** On the sample: the undefined words of the sentence, each once, sorted. *)
Example find_undefined_sample :
  Analysis.find_undefined
    (Samples.words ++ [Samples.servicio; Samples.fue])
    Samples.positivos Samples.negativos Samples.neutros
  = [Samples.fue; Samples.servicio].
Proof. vm_compute. reflexivity. Qed.

(** ** The ranking of the candidates *)

Section ranking_facts.
Import Interactive.








End ranking_facts.


(** The ties of the sort keep the order of the keys, and a key of another
    length comes after the keys of the same length at one edit distance. *)
Example suggest_candidates_ties :
  Interactive.suggest_candidates Samples.grasias
    (utf8 <$> ["terrible"; "grasas"; "brasias"; "gracias"; "a"; "b"; "grasias"]%string) 5
  = [(utf8 "grasias", (0, Interactive.Ham 0));
     (utf8 "brasias", (1, Interactive.Ham 1));
     (utf8 "gracias", (1, Interactive.Ham 1));
     (utf8 "grasas", (1, Interactive.Inf));
     (utf8 "a", (6, Interactive.Inf))].
Proof. vm_compute. reflexivity. Qed.

(** ** The protocol classifier *)

Lemma head_filter_lookup {A} (P : A → Prop) `{∀ x, Decision (P x)} (l : list A) x :
  head (filter P l) = Some x ↔
  ∃ i, l !! i = Some x ∧ P x ∧ ∀ j y, j < i → l !! j = Some y → ¬ P y.
Proof.
  induction l as [|a l IH].
  { split; [done|]. by intros (i & ? & _). }
  destruct (decide (P a)) as [Ha|Ha].
  - rewrite filter_cons_True by done. simpl. split.
    + intros [= ->]. exists 0. split_and!; [done..|]. intros; lia.
    + intros ([|i] & Hi & Hx & Hbefore); [by simplify_eq/=|].
      destruct (Hbefore 0 a); [lia|done|done].
  - rewrite filter_cons_False by done. rewrite IH. split.
    + intros (i & Hi & Hx & Hbefore). exists (S i). split_and!; [done..|].
      intros [|j] y Hj Hy; simplify_eq/=; [done|]. eapply Hbefore; [|done]. lia.
    + intros ([|i] & Hi & Hx & Hbefore); [by simplify_eq/=|].
      exists i. split_and!; [done..|]. intros j y Hj Hy.
      apply (Hbefore (S j) y); [lia|done].
Qed.

Lemma last_filter_lookup {A} (P : A → Prop) `{∀ x, Decision (P x)} (l : list A) x :
  last (filter P l) = Some x ↔
  ∃ i, l !! i = Some x ∧ P x ∧ ∀ j y, i < j → l !! j = Some y → ¬ P y.
Proof.
  induction l as [|a l IH] using rev_ind.
  { split; [done|]. by intros (i & ? & _). }
  rewrite filter_app. destruct (decide (P a)) as [Ha|Ha].
  - rewrite (filter_cons_True _ a []) by done. rewrite filter_nil, last_snoc. split.
    + intros [= ->]. exists (length l). split_and!; [|done|].
      * by rewrite lookup_app_r, Nat.sub_diag.
      * intros j y Hj Hy. apply lookup_lt_Some in Hy.
        rewrite length_app in Hy. simpl in Hy. lia.
    + intros (i & Hi & Hx & Hafter).
      destruct (decide (i = length l)) as [->|Hne].
      { rewrite lookup_app_r, Nat.sub_diag in Hi by lia. by simplify_eq/=. }
      assert (i < length l).
      { apply lookup_lt_Some in Hi. rewrite length_app in Hi. simpl in Hi. lia. }
      destruct (Hafter (length l) a); [lia| |done].
      by rewrite lookup_app_r, Nat.sub_diag.
  - rewrite (filter_cons_False _ a []) by done. rewrite filter_nil, app_nil_r, IH.
    split.
    + intros (i & Hi & Hx & Hafter). exists i. split_and!; [|done|].
      * by apply lookup_app_l_Some.
      * intros j y Hj Hy. apply lookup_app_Some in Hy as [Hy|[Hlen Hy]].
        { by eapply Hafter. }
        destruct (j - length l) eqn:?; simplify_eq/=. done.
    + intros (i & Hi & Hx & Hafter).
      apply lookup_app_Some in Hi as [Hi|[Hlen Hi]].
      * exists i. split_and!; [done..|]. intros j y Hj Hy.
        apply (Hafter j y); [done|]. by apply lookup_app_l_Some.
      * destruct (i - length l) eqn:?; simplify_eq/=. done.
Qed.

Section protocol_facts.
Import Analysis.
Context `{Unicode}.

(** No pattern of the four lists is refused by the compiler. *)
Lemma patterns_compile :
  Forall (λ p, is_Some (Re.compile p))
         (SALUDOS ++ ID_PATTERNS ++ PALABRAS_RUDAS ++ DESPEDIDAS).
Proof. apply (bool_decide_unpack _). vm_compute. exact I. Qed.

(** No greeting and no farewell matches the empty string. *)
Lemma nothing_matches_empty :
  existsb (λ p, Re.search p []) SALUDOS = false
  ∧ existsb (λ p, Re.search p []) DESPEDIDAS = false.
Proof. split; vm_compute; reflexivity. Qed.

Lemma trimmed_lines_head clean l :
  head (trimmed_lines clean) = Some l ↔ first_nonempty_line clean l.
Proof.
  unfold trimmed_lines, first_nonempty_line. fold (stripped_lines clean).
  rewrite head_filter_lookup. split.
  - intros (i & Hi & Hl & Hbefore). exists i. split_and!; [done..|].
    intros j Hj. destruct (lookup_lt_is_Some_2 (stripped_lines clean) j) as [y Hy].
    { apply lookup_lt_Some in Hi. lia. }
    rewrite Hy. f_equal. destruct (decide (y = [])); [done|].
    by destruct (Hbefore j y Hj Hy).
  - intros (i & Hi & Hl & Hbefore). exists i. split_and!; [done..|].
    intros j y Hj Hy. rewrite (Hbefore j Hj) in Hy. simplify_eq.
    intros Hne. by destruct Hne.
Qed.

Lemma trimmed_lines_last clean l :
  last (trimmed_lines clean) = Some l ↔ last_nonempty_line clean l.
Proof.
  unfold trimmed_lines, last_nonempty_line. fold (stripped_lines clean).
  rewrite last_filter_lookup. split.
  - intros (i & Hi & Hl & Hafter). exists i. split_and!; [done..|].
    intros j Hj Hlen.
    destruct (lookup_lt_is_Some_2 (stripped_lines clean) j Hlen) as [y Hy].
    rewrite Hy. f_equal. destruct (decide (y = [])); [done|].
    by destruct (Hafter j y Hj Hy).
  - intros (i & Hi & Hl & Hafter). exists i. split_and!; [done..|].
    intros j y Hj Hy. rewrite (Hafter j Hj) in Hy; [|by eapply lookup_lt_Some].
    simplify_eq. intros Hne. by destruct Hne.
Qed.

Lemma trimmed_lines_nil clean :
  trimmed_lines clean = [] ↔ no_nonempty_line clean.
Proof.
  unfold trimmed_lines, no_nonempty_line. fold (stripped_lines clean). split.
  - intros Hnil l Hl. destruct (decide (l = [])) as [|Hne]; [done|].
    assert (l ∈ filter (λ l, l ≠ []) (stripped_lines clean)) as Hin
      by by apply list_elem_of_filter.
    rewrite Hnil in Hin. by apply elem_of_nil in Hin.
  - intros Hall. induction (stripped_lines clean) as [|a l IH]; [done|].
    rewrite filter_cons_False.
    + apply IH. intros l' Hl'. apply Hall. by right.
    + intros Ha. apply Ha, Hall. by left.
Qed.

(** C5.  The greeting flag is set exactly when a greeting pattern matches
    the first non-empty trimmed line of the normalized text, the farewell
    flag exactly when a farewell pattern matches the last one; the lines in
    between have no part in either, and a text without a non-empty line has
    both flags unset. *)
Theorem protocol_first_last text :
  let clean := strip_accents (str_lower text) in
  let saludo_ok := (analiza_protocolo text).1.1.1 in
  let desp_ok := (analiza_protocolo text).2 in
  (saludo_ok = true ↔
     ∃ l p, first_nonempty_line clean l ∧ p ∈ SALUDOS ∧ Re.search p l = true)
  ∧ (desp_ok = true ↔
     ∃ l p, last_nonempty_line clean l ∧ p ∈ DESPEDIDAS ∧ Re.search p l = true)
  ∧ (∀ first middle last_,
       trimmed_lines clean = first :: middle ++ [last_] →
       saludo_ok = existsb (λ p, Re.search p first) SALUDOS
       ∧ desp_ok = existsb (λ p, Re.search p last_) DESPEDIDAS)
  ∧ (no_nonempty_line clean → saludo_ok = false ∧ desp_ok = false).
Proof.
  intros clean saludo_ok desp_ok.
  subst saludo_ok desp_ok. unfold analiza_protocolo. fold clean. cbn [fst snd].
  destruct nothing_matches_empty as [Hs Hd].
  split_and!.
  - rewrite existsb_exists. unfold first_or_empty. split.
    + intros (p & Hp & Hm). destruct (head (trimmed_lines clean)) as [l|] eqn:Hl.
      * exists l, p. rewrite <- trimmed_lines_head, list_elem_of_In. done.
      * simpl in Hm. assert (existsb (λ p, Re.search p []) SALUDOS = true) as He.
        { apply existsb_exists. eauto. }
        congruence.
    + intros (l & p & Hl & Hp & Hm). apply trimmed_lines_head in Hl.
      exists p. rewrite Hl. simpl. by rewrite list_elem_of_In in Hp.
  - rewrite existsb_exists. unfold last_or_empty. split.
    + intros (p & Hp & Hm). destruct (last (trimmed_lines clean)) as [l|] eqn:Hl.
      * exists l, p. rewrite <- trimmed_lines_last, list_elem_of_In. done.
      * simpl in Hm. assert (existsb (λ p, Re.search p []) DESPEDIDAS = true) as He.
        { apply existsb_exists. eauto. }
        congruence.
    + intros (l & p & Hl & Hp & Hm). apply trimmed_lines_last in Hl.
      exists p. rewrite Hl. simpl. by rewrite list_elem_of_In in Hp.
  - intros first middle last_ ->. unfold first_or_empty, last_or_empty.
    by rewrite app_comm_cons, last_snoc.
  - intros Hnone%trimmed_lines_nil. rewrite Hnone. done.
Qed.
End protocol_facts.

Lemma protocol_first_last_witness :
  no_nonempty_line (Analysis.strip_accents (str_lower (utf8 "
   ")))
  ∧ (Analysis.analiza_protocolo (utf8 "
   ")).1.1.1 = false
  ∧ (Analysis.analiza_protocolo (utf8 "
   ")).2 = false.
Proof.
  assert (Hnone : no_nonempty_line (Analysis.strip_accents (str_lower (utf8 "
   ")))).
  { apply trimmed_lines_nil. vm_compute. reflexivity. }
  split; [exact Hnone|].
  exact (proj2 (proj2 (proj2 (protocol_first_last (utf8 "
   ")))) Hnone).
Defined.

(** The two sample calls: greeting on the first line and farewell on the
    last; greeting and farewell on middle lines only. *)
Example protocol_samples :
  (let r := Analysis.analiza_protocolo Samples.call_ok in (r.1.1.1, r.1.1.2, r.2))
  = (true, true, true)
  ∧ (let r := Analysis.analiza_protocolo Samples.call_middle in (r.1.1.1, r.2))
    = (false, false).
Proof. split; vm_compute; reflexivity. Qed.

(** ** [str.replace] *)

Section replace_facts.
Implicit Types old new s : str.

Lemma startswith_prefix s old : startswith s old = true ↔ ∃ r, s = old ++ r.
Proof.
  revert s. induction old as [|a old IH]; intros [|c s]; simpl.
  - split; [by exists []|done].
  - split; [by eexists|done].
  - split; [done|]. by intros (r & ?).
  - destruct (decide (a = c)) as [->|Hne].
    + rewrite IH. split; intros (r & Hr); exists r; by simplify_eq.
    + split; [done|]. intros (r & Hr). by simplify_eq.
Qed.

Lemma replace_go_skip old new k s :
  replace_go old new k s = replace_go old new 0 (drop k s).
Proof.
  revert k. induction s as [|c s IH]; intros [|k]; try done.
  simpl. apply IH.
Qed.

Lemma replace_go_hit old new r :
  old ≠ [] →
  replace_go old new 0 (old ++ r) = new ++ replace_go old new 0 r.
Proof.
  destruct old as [|a old]; [done|]. intros _. cbn [app replace_go].
  assert (startswith (a :: old ++ r) (a :: old) = true) as ->.
  { apply startswith_prefix. by exists r. }
  f_equal. rewrite replace_go_skip. simpl. rewrite Nat.sub_0_r.
  by rewrite drop_app_length.
Qed.

Lemma is_split_nonempty old pieces : is_split old pieces → pieces ≠ [].
Proof. by destruct pieces. Qed.

(** Replacing is splitting at the occurrences and joining with the new
    string: [s.replace(old, new) == new.join(s.split(old))]. *)
Lemma replace_split old new s :
  old ≠ [] →
  ∃ pieces, is_split old pieces
            ∧ s = str_join old pieces
            ∧ replace s old new = str_join new pieces.
Proof.
  intros Hold.
  assert (Hgo : replace s old new = replace_go old new 0 s) by (by destruct old).
  rewrite Hgo. clear Hgo.
  remember (length s) as n eqn:Hn. revert s Hn.
  induction n as [n IH] using lt_wf_ind. intros [|c t] Hn.
  { exists [[]]. split_and!; [|done..].
    intros (a & b & Hab). symmetry in Hab.
    apply app_eq_nil in Hab as [_ [? _]%app_eq_nil]. done. }
  destruct (startswith (c :: t) old) eqn:Hstart.
  - apply startswith_prefix in Hstart as [r Hr]. rewrite Hr.
    destruct (IH (length r)) with (s := r) as (ps & Hsplit & Hjoin & Hrepl); [|done|].
    { subst n. rewrite Hr, length_app. destruct old; [done|simpl; lia]. }
    exists ([] :: ps). pose proof (is_split_nonempty _ _ Hsplit) as Hne.
    destruct ps as [|p ps]; [done|]. split_and!.
    + split; [|done]. intros a b Hab. apply (f_equal length) in Hab.
      rewrite !length_app in Hab. simpl in Hab. destruct a; [done|simpl in Hab; lia].
    + by rewrite Hjoin at 1.
    + by rewrite replace_go_hit, Hrepl by done.
  - destruct (IH (length t)) with (s := t) as (ps & Hsplit & Hjoin & Hrepl); [|done|].
    { subst n. simpl. lia. }
    cbn [replace_go]. rewrite Hstart, Hrepl.
    destruct ps as [|p0 ps]; [done|]. exists ((c :: p0) :: ps).
    destruct ps as [|p1 ps].
    + cbn [str_join is_split] in *. subst t. split_and!; [|done..].
      intros (a & b & Hab). destruct a as [|c' a].
      * assert (startswith (c :: p0) old = true) as Hs.
        { apply startswith_prefix. exists b. by rewrite Hab. }
        congruence.
      * apply Hsplit. exists a, b. by simplify_eq/=.
    + split_and!; [|by cbn [str_join] in *; subst..].
      destruct Hsplit as [Hfirst Hrest]. split; [|done].
      intros a b Hab. destruct a as [|c' a].
      * assert (startswith (c :: t) old = true) as Hs.
        { apply startswith_prefix. exists (b ++ str_join old (p1 :: ps)).
          rewrite Hjoin.
          change (str_join old (p0 :: p1 :: ps))
            with (p0 ++ old ++ str_join old (p1 :: ps)).
          simpl in Hab. rewrite (app_assoc old), <- Hab. simpl.
          by rewrite <- app_assoc. }
        congruence.
      * simplify_eq/=. f_equal. by eapply Hfirst.
Qed.

(** Without an occurrence nothing changes. *)
Lemma replace_absent old new s : old ≠ [] → ¬ occurs old s → replace s old new = s.
Proof.
  intros Hold Hno. destruct (replace_split old new s Hold)
    as (ps & Hsplit & Hjoin & ->).
  destruct ps as [|p0 [|p1 ps]]; [done|by simpl in *; subst|].
  destruct Hno. rewrite Hjoin. cbn [str_join]. by eexists p0, _.
Qed.
End replace_facts.

(** ** The resolver *)

Section resolver_facts.
Import Interactive.
Context `{Unicode}.
Implicit Types (st : state) (word raw : str) (idx : nat).

(** *** Running the monad *)

Lemma bind_run {A B} (m : M A) (f : A → M B) st :
  (m ≫= f) st =
  match m st with
  | (Ok a, st') => f a st'
  | (Raise e, st') => (Raise e, st')
  end.
Proof. done. Qed.

Lemma fmap_run {A B} (g : A → B) (m : M A) st :
  (g <$> m) st =
  match m st with
  | (Ok a, st') => (Ok (g a), st')
  | (Raise e, st') => (Raise e, st')
  end.
Proof. done. Qed.

Lemma same_data_refl st : same_data st st.
Proof. by repeat split. Qed.

Lemma same_data_trans st1 st2 st3 :
  same_data st1 st2 → same_data st2 st3 → same_data st1 st3.
Proof. unfold same_data. intros (?&?&?&?&?) (?&?&?&?&?). split_and!; congruence. Qed.

Lemma classified_same_data word idx st0 st st' :
  same_data st0 st → classified word idx st st' → classified word idx st0 st'.
Proof.
  unfold same_data, classified.
  intros (-> & -> & -> & -> & ->). done.
Qed.

Lemma replaced_same_data lex_keys raw word idx st0 st st' :
  same_data st0 st → replaced lex_keys raw word idx st st' →
  replaced lex_keys raw word idx st0 st'.
Proof.
  unfold same_data, replaced.
  intros (-> & -> & -> & -> & ->). done.
Qed.

(** Reading a line changes nothing but the lines left. *)
Lemma input_run st :
  (∃ line rest, stdin st = line :: rest ∧ (input st).1 = Ok line
                ∧ stdin (input st).2 = rest ∧ same_data st (input st).2)
  ∨ (stdin st = [] ∧ input st = (Raise EOFError, st)).
Proof.
  unfold input. destruct (stdin st) as [|line rest]; [by right|left].
  exists line, rest. by repeat split.
Qed.

Lemma input_same_data st : same_data st (input st).2.
Proof.
  destruct (input_run st) as [(? & ? & _ & _ & _ & ?)|[_ ->]];
    [done|apply same_data_refl].
Qed.

(** The range test does not touch the state, and answers [True] only on
    digits that [int] reads as a number of the range. *)
Lemma in_range_run s n st :
  (in_range s n st).2 = st
  ∧ ((in_range s n st).1 = Ok true →
       isdigit s = true ∧ ∃ i, py_int s = Some i ∧ (1 ≤ i ≤ Z.of_nat n)%Z).
Proof.
  unfold in_range, int. destruct (isdigit s); [|done].
  rewrite bind_run. destruct (py_int s) as [i|]; [|done].
  split; [done|]. intros [= Hi%bool_decide_eq_true]. eauto.
Qed.

Lemma index_of_run s i st :
  py_int s = Some i → index_of s st = (Ok (Z.to_nat (i - 1)), st).
Proof. intros Hi. unfold index_of, int. by rewrite bind_run, Hi. Qed.

Lemma item_run {A} (l : list A) i x st : l !! i = Some x → item l i st = (Ok x, st).
Proof. intros Hi. unfold item. by rewrite Hi. Qed.

(** *** The four ways a pass can end after the selection *)

(** A pass that stops without a success: the data is as before. *)
Ltac stops :=
  left; split;
  [simpl in *; eauto using same_data_trans, same_data_refl|by split].

Lemma classify_positive_run word idx st :
  nothing_done st (classify_positive word idx st)
  ∨ ((classify_positive word idx st).1 = Ok Added
     ∧ classified word idx st (classify_positive word idx st).2).
Proof.
  unfold classify_positive. rewrite bind_run, fmap_run.
  pose proof (input_same_data st) as Hsame.
  destruct (input st) as [[peso|e] st1]; [|by left].
  simpl in Hsame. destruct (py_int (strip peso)) as [p|]; [|by left].
  rewrite bind_run. cbn [gets].
  destruct (bool_decide (1 ≤ p ≤ 3)%Z && negb (dict_in word (positivos st1)))
    eqn:Hok; [|by left].
  apply andb_true_iff in Hok as [Hp%bool_decide_eq_true Hnew%negb_true_iff].
  right. split; [done|]. eapply classified_same_data; [done|].
  split_and!; [done..|]. left. by exists p.
Qed.

Lemma classify_negative_run word idx st :
  nothing_done st (classify_negative word idx st)
  ∨ ((classify_negative word idx st).1 = Ok Added
     ∧ classified word idx st (classify_negative word idx st).2).
Proof.
  unfold classify_negative. rewrite bind_run, fmap_run.
  pose proof (input_same_data st) as Hsame.
  destruct (input st) as [[peso|e] st1]; [|by left].
  simpl in Hsame. destruct (py_int (strip peso)) as [n|]; [|by left].
  rewrite bind_run. cbn [gets].
  destruct (bool_decide (-3 ≤ n ≤ -1)%Z && negb (dict_in word (negativos st1)))
    eqn:Hok; [|by left].
  apply andb_true_iff in Hok as [Hn%bool_decide_eq_true Hnew%negb_true_iff].
  right. split; [done|]. eapply classified_same_data; [done|].
  split_and!; [done..|]. right; left. by exists n.
Qed.

Lemma classify_neutral_run word idx st :
  nothing_done st (classify_neutral word idx st)
  ∨ ((classify_neutral word idx st).1 = Ok Added
     ∧ classified word idx st (classify_neutral word idx st).2).
Proof.
  unfold classify_neutral. rewrite bind_run. cbn [gets].
  destruct (negb (dict_in word (neutros st))) eqn:Hnew.
  - apply negb_true_iff in Hnew. right. split; [done|].
    split_and!; [done..|]. right; right. done.
  - left. split; [apply same_data_refl|done].
Qed.

Lemma suggest_and_replace_run lex_keys raw word idx st :
  nothing_done st (suggest_and_replace lex_keys raw word idx st)
  ∨ ((suggest_and_replace lex_keys raw word idx st).1 = Ok TextUpdated
     ∧ replaced lex_keys raw word idx st
         (suggest_and_replace lex_keys raw word idx st).2).
Proof.
  unfold suggest_and_replace. rewrite bind_run, fmap_run.
  pose proof (input_same_data st) as Hsame.
  destruct (input st) as [[choice|e] st1]; [|by left].
  simpl in Hsame. rewrite bind_run.
  destruct (in_range_run (strip choice)
              (length (suggest_candidates word lex_keys 5)) st1) as [Hst Hres].
  destruct (in_range _ _ st1) as [[ok|e] st2]; simpl in Hst, Hres; subst st2;
    [|by left].
  destruct ok; [|by left].
  destruct Hres as (_ & i & Hi & Hrange); [done|].
  rewrite bind_run, (index_of_run _ i) by done.
  destruct (lookup_lt_is_Some_2 (suggest_candidates word lex_keys 5)
              (Z.to_nat (i - 1))) as [[cand key] Hc]; [lia|].
  rewrite bind_run, (item_run _ _ (cand, key)) by done.
  right. split; [done|]. eapply replaced_same_data; [done|].
  split_and!; [done..|]. exists cand. split; [|done].
  apply list_elem_of_fmap. exists (cand, key). split; [done|].
  by eapply list_elem_of_lookup_2.
Qed.

(** One pass: nothing done, or the selected word classified or replaced. *)
Lemma iteration_run lex_keys st :
  nothing_done st (iteration lex_keys st)
  ∨ ∃ idx raw,
      undefined st !! idx = Some raw
      ∧ let word := Analysis.strip_accents (str_lower raw) in
        ((iteration lex_keys st).1 = Ok Added
         ∧ classified word idx st (iteration lex_keys st).2)
        ∨ ((iteration lex_keys st).1 = Ok TextUpdated
           ∧ replaced lex_keys raw word idx st (iteration lex_keys st).2).
Proof.
  unfold iteration. rewrite bind_run, fmap_run.
  pose proof (input_same_data st) as Hsame1.
  destruct (input st) as [[sel|e] st1]; [|by left]. simpl in Hsame1.
  destruct (decide (strip sel = [])) as [Hend|Hsel]; [by left|].
  rewrite bind_run. cbn [gets]. rewrite bind_run.
  destruct (in_range_run (strip sel) (length (undefined st1)) st1) as [Hst Hres].
  destruct (in_range _ _ st1) as [[ok|e] st2]; simpl in Hst, Hres; subst st2;
    [|by left].
  destruct ok; [|by left]. cbn [negb].
  destruct Hres as (_ & i & Hi & Hrange); [done|].
  rewrite bind_run, (index_of_run _ i) by done.
  destruct (lookup_lt_is_Some_2 (undefined st1) (Z.to_nat (i - 1)))
    as [raw Hraw]; [lia|].
  rewrite bind_run, (item_run _ _ raw) by done.
  set (idx := Z.to_nat (i - 1)) in *.
  set (word := Analysis.strip_accents (str_lower raw)).
  assert (Hq : undefined st !! idx = Some raw).
  { destruct Hsame1 as [Hu _]. by rewrite <- Hu. }
  rewrite bind_run.
  pose proof (input_same_data st1) as Hsame2.
  destruct (input st1) as [[valid|e] st2]; [|stops]. simpl in Hsame2.
  assert (Hsame : same_data st st2) by (by eapply same_data_trans).
  assert (Hlift : ∀ res : result outcome * state,
    nothing_done st2 res
    ∨ (res.1 = Ok Added ∧ classified word idx st2 res.2)
    ∨ (res.1 = Ok TextUpdated ∧ replaced lex_keys raw word idx st2 res.2) →
    nothing_done st res
    ∨ ∃ idx raw,
        undefined st !! idx = Some raw
        ∧ let word := Analysis.strip_accents (str_lower raw) in
          (res.1 = Ok Added ∧ classified word idx st res.2)
          ∨ (res.1 = Ok TextUpdated ∧ replaced lex_keys raw word idx st res.2)).
  { intros res [(Hs & Hr)|[[Hr Hc]|[Hr Hc]]].
    - left. split; [by eapply same_data_trans|done].
    - right. exists idx, raw. split; [done|]. left.
      split; [done|]. by eapply classified_same_data.
    - right. exists idx, raw. split; [done|]. right.
      split; [done|]. by eapply replaced_same_data. }
  destruct (decide (str_lower (strip valid) = utf8 "s")) as [Hyes|Hno].
  - rewrite bind_run, fmap_run.
    pose proof (input_same_data st2) as Hsame3.
    destruct (input st2) as [[cat|e] st3]; [|stops]. simpl in Hsame3.
    assert (Hlift3 : ∀ res : result outcome * state,
      nothing_done st3 res ∨ (res.1 = Ok Added ∧ classified word idx st3 res.2) →
      nothing_done st2 res
      ∨ (res.1 = Ok Added ∧ classified word idx st2 res.2)
      ∨ (res.1 = Ok TextUpdated ∧ replaced lex_keys raw word idx st2 res.2)).
    { intros res [(Hs & Hr)|[Hr Hc]].
      - left. split; [by eapply same_data_trans|done].
      - right; left. split; [done|]. by eapply classified_same_data. }
    repeat case_decide.
    + apply Hlift, Hlift3, classify_positive_run.
    + apply Hlift, Hlift3, classify_negative_run.
    + apply Hlift, Hlift3, classify_neutral_run.
    + stops.
  - apply Hlift.
    destruct (suggest_and_replace_run lex_keys raw word idx st2) as [?|?]; auto.
Qed.

(** C2.  One pass of the loop either leaves the queue, the three mappings
    and the file as they were, or removes the selected word from the queue
    after a success: the word was inserted in one category with a weight of
    its range and was not there before, or a candidate was accepted and the
    file rewritten.  Every pass that ends on another message than those of
    the two successes, or on an exception, is of the first kind. *)
Theorem removal_only_on_success lex_keys st :
  let r := (iteration lex_keys st).1 in
  let st' := (iteration lex_keys st).2 in
  (same_data st st' ∧ r ≠ Ok Added ∧ r ≠ Ok TextUpdated)
  ∨ ∃ idx raw,
      undefined st !! idx = Some raw
      ∧ undefined st' = delete idx (undefined st)
      ∧ let word := Analysis.strip_accents (str_lower raw) in
        (r = Ok Added ∧ classified word idx st st')
        ∨ (r = Ok TextUpdated ∧ replaced lex_keys raw word idx st st').
Proof.
  intros r st'. subst r st'.
  destruct (iteration_run lex_keys st) as [Hnone|(idx & raw & Hraw & Hdone)];
    [by left|right].
  exists idx, raw. split; [done|]. split; [|done].
  by destruct Hdone as [[_ (? & _)]|[_ (? & _)]].
Qed.

(** *** A pass with a valid selection *)

Lemma input_read st line rest :
  stdin st = line :: rest → input st = (Ok line, after_reading 1 st).
Proof. intros Hin. unfold input, after_reading. by rewrite Hin. Qed.



(** With a valid selection and another answer, the pass is the suggestion
    branch. *)
Lemma iteration_suggestion lex_keys st sel valid rest i raw :
  stdin st = sel :: valid :: rest →
  strip sel ≠ [] → isdigit (strip sel) = true → py_int (strip sel) = Some i →
  (1 ≤ i ≤ Z.of_nat (length (undefined st)))%Z →
  undefined st !! Z.to_nat (i - 1) = Some raw →
  str_lower (strip valid) ≠ utf8 "s" →
  iteration lex_keys st =
  suggest_and_replace lex_keys raw (Analysis.strip_accents (str_lower raw))
    (Z.to_nat (i - 1)) (after_reading 2 st).
Proof.
  intros Hin Hsel Hdig Hi Hrange Hraw Hno.
  unfold iteration. rewrite bind_run, fmap_run, (input_read _ _ _ Hin).
  rewrite decide_False by done. rewrite bind_run. cbn [gets]. rewrite bind_run.
  unfold in_range at 1. rewrite Hdig. unfold int at 1.
  rewrite bind_run, Hi. cbn [mret M_ret after_reading undefined negb].
  rewrite bool_decide_eq_true_2 by done. cbn [negb].
  rewrite bind_run, (index_of_run _ i) by done.
  rewrite bind_run, (item_run _ _ raw) by done.
  rewrite bind_run. erewrite input_read; [|by cbn; rewrite Hin].
  rewrite decide_False by done.
  unfold after_reading. cbn. by rewrite Hin.
Qed.






(** *** The loop *)

Lemma consumes_ret {A} (a : A) : consumes (mret a : M A).
Proof. by intros st. Qed.

Lemma consumes_raise {A} e : consumes (raise e : M A).
Proof. by intros st. Qed.

Lemma consumes_gets {A} (f : state → A) : consumes (gets f).
Proof. by intros st. Qed.

Lemma consumes_modify f :
  (∀ st, stdin (f st) = stdin st) → consumes (modify f).
Proof. intros Hf st. simpl. by rewrite Hf. Qed.

Lemma consumes_input : consumes input.
Proof.
  intros st. unfold input.
  destruct (stdin st) eqn:Hs; simpl; rewrite ?Hs; simpl; lia.
Qed.

Lemma consumes_bind {A B} (m : M A) (f : A → M B) :
  consumes m → (∀ a, consumes (f a)) → consumes (m ≫= f).
Proof.
  intros Hm Hf st. rewrite bind_run. specialize (Hm st).
  destruct (m st) as [[a|e] st1]; simpl in *; [|done].
  specialize (Hf a st1). lia.
Qed.

Lemma consumes_fmap {A B} (g : A → B) (m : M A) : consumes m → consumes (g <$> m).
Proof.
  intros Hm st. rewrite fmap_run. specialize (Hm st).
  by destruct (m st) as [[a|e] st1].
Qed.

Ltac consumes_step :=
  first
    [ apply consumes_ret | apply consumes_raise | apply consumes_gets
    | apply consumes_input | apply consumes_fmap
    | apply consumes_modify; by intros []
    | apply consumes_bind; [|intros ?]
    | case_decide | case_match ].

Ltac solve_consumes :=
  unfold classify_positive, classify_negative, classify_neutral,
    suggest_and_replace, in_range, index_of, item, int, pop;
  repeat consumes_step.

Lemma suggest_and_replace_consumes lex_keys raw word idx :
  consumes (suggest_and_replace lex_keys raw word idx).
Proof. solve_consumes. Qed.

Lemma classify_consumes word idx :
  consumes (classify_positive word idx) ∧ consumes (classify_negative word idx)
  ∧ consumes (classify_neutral word idx).
Proof. split_and!; solve_consumes. Qed.

(** A pass that does not raise has read a line at least. *)
Lemma iteration_reads lex_keys st o :
  (iteration lex_keys st).1 = Ok o →
  length (stdin (iteration lex_keys st).2) < length (stdin st).
Proof.
  unfold iteration. rewrite bind_run, fmap_run.
  destruct (input_run st) as [(line & rest & Hin & Hline & Hrest & _)|[_ ->]];
    [|done].
  destruct (input st) as [[sel|e] st1]; simpl in Hline, Hrest; [|done].
  intros _.
  assert (Hk : ∀ sel, consumes
    (if decide (sel = []) then mret Finished
     else
       queue ← gets undefined;
       ok ← in_range sel (length queue);
       if negb ok then mret InvalidSelection
       else
         idx ← index_of sel;
         raw ← item queue idx;
         let word := Analysis.strip_accents (str_lower raw) in
         valid ← input;
         if decide (str_lower (strip valid) = utf8 "s") then
           cat ← (λ s, str_lower (strip s)) <$> input;
           if decide (cat = utf8 "p") then classify_positive word idx
           else if decide (cat = utf8 "n") then classify_negative word idx
           else if decide (cat = utf8 "t") then classify_neutral word idx
           else mret InvalidCategory
         else suggest_and_replace lex_keys raw word idx)).
  { intros s. solve_consumes. }
  eapply Nat.le_lt_trans; [apply (Hk (strip sel) st1)|].
  rewrite Hrest, Hin. simpl. lia.
Qed.

(** One pass more than there are lines is fuel enough: more changes
    nothing. *)
Lemma loop_fuel lex_keys fuel1 fuel2 st :
  length (stdin st) < fuel1 → length (stdin st) < fuel2 →
  loop fuel1 lex_keys st = loop fuel2 lex_keys st.
Proof.
  revert fuel2 st. induction fuel1 as [|fuel1 IH]; intros [|fuel2] st H1 H2;
    [lia..|].
  cbn [loop]. rewrite !bind_run. cbn [gets].
  destruct (undefined st); [done|]. rewrite !bind_run.
  pose proof (iteration_reads lex_keys st) as Hreads.
  destruct (iteration lex_keys st) as [[o|e] st1]; [|done].
  specialize (Hreads o eq_refl). simpl in Hreads.
  destruct o; try done; apply IH; lia.
Qed.

(** The queue only loses words, whatever the operator types. *)
Lemma loop_queue lex_keys fuel st :
  undefined (loop fuel lex_keys st).2 `sublist_of` undefined st.
Proof.
  revert st. induction fuel as [|fuel IH]; intros st; [done|].
  cbn [loop]. rewrite bind_run. cbn [gets].
  destruct (undefined st) as [|w q] eqn:Hq; [simpl; by rewrite Hq|]. rewrite bind_run.
  assert (Hpass : undefined (iteration lex_keys st).2 `sublist_of` undefined st).
  { destruct (iteration_run lex_keys st)
      as [((-> & _) & _)|(idx & raw & _ & [[_ (-> & _)]|[_ (-> & _)]])];
      [done|apply sublist_delete..]. }
  rewrite Hq in Hpass.
  destruct (iteration lex_keys st) as [[o|e] st1]; simpl in Hpass; [|done].
  destruct o; try done; (etrans; [apply IH|done]).
Qed.

(** C8.  When the operator accepts a candidate, the pass rewrites the file
    once, with the content in which the selected word, as the queue has it,
    is replaced by the candidate at every occurrence met from the left, and
    then removes the word from the queue; the lexicon is not touched. *)
Theorem accepted_candidate_replaces lex_keys st sel valid choice rest i raw j cand key :
  stdin st = sel :: valid :: choice :: rest →
  strip sel ≠ [] → isdigit (strip sel) = true → py_int (strip sel) = Some i →
  (1 ≤ i ≤ Z.of_nat (length (undefined st)))%Z →
  undefined st !! Z.to_nat (i - 1) = Some raw →
  str_lower (strip valid) ≠ utf8 "s" →
  let word := Analysis.strip_accents (str_lower raw) in
  let cands := suggest_candidates word lex_keys 5 in
  isdigit (strip choice) = true → py_int (strip choice) = Some j →
  (1 ≤ j ≤ Z.of_nat (length cands))%Z →
  cands !! Z.to_nat (j - 1) = Some (cand, key) →
  iteration lex_keys st =
    (Ok TextUpdated,
     State (delete (Z.to_nat (i - 1)) (undefined st))
           (positivos st) (negativos st) (neutros st)
           (replace (transcript st) raw cand) rest)
  ∧ (raw ≠ [] →
     ∃ pieces, is_split raw pieces
               ∧ transcript st = str_join raw pieces
               ∧ replace (transcript st) raw cand = str_join cand pieces).
Proof.
  intros Hin Hsel Hdig Hi Hrange Hraw Hno word cands Hdigc Hj Hrangec Hcand.
  split; [|intros Hne; by apply replace_split].
  rewrite (iteration_suggestion lex_keys st sel valid (choice :: rest) i raw) by done.
  fold word. unfold suggest_and_replace. fold cands.
  rewrite bind_run, fmap_run. erewrite input_read; [|by cbn; rewrite Hin].
  rewrite bind_run. unfold in_range at 1. rewrite Hdigc. unfold int at 1.
  rewrite bind_run, Hj. cbn [mret M_ret].
  rewrite bool_decide_eq_true_2 by done.
  rewrite bind_run, (index_of_run _ j) by done.
  rewrite bind_run, (item_run _ _ (cand, key)) by done.
  unfold mbind, M_bind, gets, modify, pop, mret, M_ret, set_transcript,
    set_undefined, after_reading. cbn. by rewrite Hin.
Qed.
End resolver_facts.



Lemma accepted_candidate_replaces_witness :
  Interactive.iteration Samples.lex_keys Samples.typo
  = (Interactive.Ok Interactive.TextUpdated,
     Interactive.State [Samples.bueno]
       Samples.positivos Samples.negativos Samples.neutros
       (utf8 "Muchas gracias, fue bueno. Grasias por todo, graciasss")
       [[]]).
Proof.
  refine (eq_trans (proj1 (accepted_candidate_replaces Samples.lex_keys Samples.typo
            (utf8 "2") (utf8 "n") (utf8 "1") [[]] 2 Samples.grasias 1
            Samples.gracias (1, Interactive.Ham 1) _ _ _ _ _ _ _ _ _ _ _)) _).
  - reflexivity.
  - vm_compute. discriminate.
  - reflexivity.
  - reflexivity.
  - vm_compute. split; discriminate.
  - reflexivity.
  - vm_compute. discriminate.
  - reflexivity.
  - reflexivity.
  - vm_compute. split; discriminate.
  - vm_compute. reflexivity.
  - vm_compute. reflexivity.
Defined.

(** The passes that change nothing: an invalid selection, a weight out of
    range, a weight that is not a number, an unknown category, a suggestion
    left aside; and the end of the session. *)
Example passes_without_effect :
  let pass lines :=
    Interactive.iteration Samples.lex_keys
      (Interactive.State [Samples.grasias] Samples.positivos Samples.negativos
         Samples.neutros Samples.text (utf8 <$> lines)) in
  let ends_on o lines :=
    pass lines
    = (Interactive.Ok o,
       Interactive.State [Samples.grasias] Samples.positivos Samples.negativos
         Samples.neutros Samples.text []) in
  ends_on Interactive.InvalidSelection ["7"]%string
  ∧ ends_on Interactive.InvalidSelection ["uno"]%string
  ∧ ends_on Interactive.NotAdded ["1"; "s"; "p"; "4"]%string
  ∧ ends_on Interactive.NotAdded ["1"; "s"; "n"; "1"]%string
  ∧ ends_on Interactive.InvalidWeight ["1"; "s"; "p"; "dos"]%string
  ∧ ends_on Interactive.InvalidCategory ["1"; "s"; "x"]%string
  ∧ ends_on Interactive.Omitted ["1"; "n"; ""]%string
  ∧ ends_on Interactive.Omitted ["1"; "n"; "6"]%string
  ∧ ends_on Interactive.Finished [" "]%string.
Proof. repeat split; vm_compute; reflexivity. Qed.

(** ** Saving the lexicon *)

Section save_facts.
Import Interactive.


End save_facts.


(** The sample document after a save: [negativos] rewritten in place, the
    two missing mappings appended, [version] and [autores] as they were. *)
Example save_lexicon_sample :
  Interactive.save_lexicon [(Samples.excelente, 3%Z)] [(Samples.terrible, (-3)%Z)] []
    Samples.document
  = (Interactive.Ok (),
     Interactive.JObj
       [(utf8 "version", Interactive.JInt 3);
        (utf8 "negativos", Interactive.JObj [(Samples.terrible, Interactive.JInt (-3))]);
        (utf8 "autores",
         Interactive.JArr [Interactive.JStr (utf8 "equipo"); Interactive.JNull]);
        (utf8 "positivos", Interactive.JObj [(Samples.excelente, Interactive.JInt 3)]);
        (utf8 "neutros", Interactive.JObj [])]).
Proof. vm_compute. reflexivity. Qed.
